(** * The 5 Whys wizard: controller ([FiveWhysApp.tsx]) and step presenter
    ([WhyCard.tsx]).

    A shallow embedding of the two React components and of the text
    handling they rely on (regular expressions, [String.prototype.replace],
    [String.prototype.trim], the zod string schemas), followed by the
    properties of the wizard's state machine. *)

From Stdlib Require Import NArith Ascii.
From stdpp Require Import strings list gmap.

Local Open Scope N_scope.

(** ** JavaScript strings

    A JavaScript string is a sequence of UTF-16 code units and [length]
    counts code units; a code unit is modelled as an [N]. *)

Abbreviation jsstring := (list N).

Fixpoint of_string (s : string) : jsstring :=
  match s with
  | EmptyString => []
  | String a s' => N_of_ascii a :: of_string s'
  end.

(** The code unit of the double quote that the template literals insert. *)
Definition dquote : N := 34.

(** ** Regular expressions

    The fragment of the ECMAScript pattern language the two components use:
    single characters and character classes, sequencing, alternation and the
    greedy star. Matching is the backtracking matcher of the language
    definition, written with a continuation: the first alternative is tried
    first, a star tries one more iteration before it tries to stop, and an
    iteration that consumes nothing is refused. *)

Inductive regex : Type :=
| REmpty
| RChar (p : N -> bool)
| RSeq (r1 r2 : regex)
| RAlt (r1 r2 : regex)
| RStar (r : regex).

Definition or_else (a b : option jsstring) : option jsstring :=
  match a with
  | Some t => Some t
  | None => b
  end.

(** The iterations of a star over a pattern matched by [body], with
    continuation [k]. The argument [n] bounds the number of iterations; as
    each one consumes a character, the length of the input is enough. *)
Fixpoint star_loop (body : jsstring -> (jsstring -> option jsstring) -> option jsstring)
  (k : jsstring -> option jsstring) (n : nat) (s : jsstring) {struct n}
  : option jsstring :=
  match n with
  | O => k s
  | S n' =>
      or_else
        (body s
           (fun s' =>
              if (length s' <? length s)%nat then star_loop body k n' s' else None))
        (k s)
  end.

Fixpoint rmatch (r : regex) (s : jsstring) (k : jsstring -> option jsstring)
  {struct r} : option jsstring :=
  match r with
  | REmpty => k s
  | RChar p =>
      match s with
      | c :: s' => if p c then k s' else None
      | [] => None
      end
  | RSeq r1 r2 => rmatch r1 s (fun s' => rmatch r2 s' k)
  | RAlt r1 r2 => or_else (rmatch r1 s k) (rmatch r2 s k)
  | RStar r1 => star_loop (rmatch r1) k (length s) s
  end.

(** [rexec r s] matches [r] at the start of [s] and returns what follows the
    match. *)
Definition rexec (r : regex) (s : jsstring) : option jsstring :=
  rmatch r s Some.

(** [RegExp.prototype.test] of a pattern without the sticky flag: is there a
    match starting at some index? *)
Fixpoint regex_test (r : regex) (s : jsstring) : bool :=
  match rexec r s with
  | Some _ => true
  | None =>
      match s with
      | [] => false
      | _ :: s' => regex_test r s'
      end
  end.

(** [s.replace(r, "")] for a global pattern [r]: scan from the left; where
    the pattern matches, drop the match and go on after it (after one more
    character when the match is empty); elsewhere keep the character. *)
Fixpoint replace_fuel (fuel : nat) (r : regex) (s : jsstring) : jsstring :=
  match fuel with
  | O => s
  | S fuel' =>
      match s with
      | [] => []
      | c :: s' =>
          match rexec r s with
          | Some rest =>
              if (length rest <? length s)%nat
              then replace_fuel fuel' r rest
              else c :: replace_fuel fuel' r s'
          | None => c :: replace_fuel fuel' r s'
          end
      end
  end.

Definition replace_all (r : regex) (s : jsstring) : jsstring :=
  replace_fuel (length s) r s.

(** *** Pattern atoms *)

(** [Canonicalize] of a pattern with the [i] flag and without the [u] flag:
    upper-casing. It is written out for the ASCII letters, which is all the
    patterns below compare against: no code unit above 127 canonicalizes to
    an ASCII one. *)
Definition canonicalize (c : N) : N :=
  if (97 <=? c) && (c <=? 122) then c - 32 else c.

Definition rchar (x : N) : regex := RChar (fun c => c =? x).
Definition rchar_i (x : N) : regex :=
  RChar (fun c => canonicalize c =? canonicalize x).

Fixpoint rlit_i (l : jsstring) : regex :=
  match l with
  | [] => REmpty
  | x :: l' => RSeq (rchar_i x) (rlit_i l')
  end.

Definition rplus (r : regex) : regex := RSeq r (RStar r).

(** [\w]: [A-Za-z0-9_]. *)
Definition is_word (c : N) : bool :=
  ((48 <=? c) && (c <=? 57)) || ((65 <=? c) && (c <=? 90))
  || (c =? 95) || ((97 <=? c) && (c <=? 122)).

Definition lt_sign : N := 60.
Definition gt_sign : N := 62.
Definition eq_sign : N := 61.

(** *** The patterns of the source *)

(** [/<script|javascript:|on\w+=/i], the pattern of both schemas. *)
Definition re_injection : regex :=
  RAlt (rlit_i (of_string "<script"))
    (RAlt (rlit_i (of_string "javascript:"))
       (RSeq (rlit_i (of_string "on"))
          (RSeq (rplus (RChar is_word)) (rchar_i eq_sign)))).

(** [/<[^>]*>/g] *)
Definition re_tag : regex :=
  RSeq (rchar lt_sign)
    (RSeq (RStar (RChar (fun c => negb (c =? gt_sign)))) (rchar gt_sign)).

(** [/javascript:/gi] *)
Definition re_javascript : regex := rlit_i (of_string "javascript:").

(** [/on\w+=/gi] *)
Definition re_handler : regex :=
  RSeq (rlit_i (of_string "on"))
    (RSeq (rplus (RChar is_word)) (rchar_i eq_sign)).

(** [sanitizeInput], the same function in both components. *)
Definition sanitizeInput (value : jsstring) : jsstring :=
  replace_all re_handler (replace_all re_javascript (replace_all re_tag value)).

(** ** [String.prototype.trim]

    The code units of WhiteSpace and LineTerminator. *)
Definition is_space (c : N) : bool :=
  ((9 <=? c) && (c <=? 13)) || (c =? 32) || (c =? 160) || (c =? 5760)
  || ((8192 <=? c) && (c <=? 8202)) || (c =? 8232) || (c =? 8233)
  || (c =? 8239) || (c =? 8287) || (c =? 12288) || (c =? 65279).

Fixpoint trimStart (s : jsstring) : jsstring :=
  match s with
  | [] => []
  | c :: s' => if is_space c then trimStart s' else s
  end.

Definition trimEnd (s : jsstring) : jsstring :=
  reverse (trimStart (reverse s)).

Definition trim (s : jsstring) : jsstring := trimEnd (trimStart s).

(** Truthiness of a string: it is not empty. *)
Definition truthy (s : jsstring) : bool :=
  match s with
  | [] => false
  | _ :: _ => true
  end.

(** ** zod string schemas

    A schema is the list of its checks in the order they were chained.
    [safeParse] runs all of them ([min] and [max] do not abort, so the
    refinement runs too) and returns the messages of the issues in that
    order; the parse succeeds when there is none. *)

Inductive ZodCheck : Type :=
| ZMin (n : nat) (message : jsstring)
| ZMax (n : nat) (message : jsstring)
| ZRefine (ok : jsstring -> bool) (message : jsstring).

Definition run_check (val : jsstring) (c : ZodCheck) : option jsstring :=
  match c with
  | ZMin n message => if (length val <? n)%nat then Some message else None
  | ZMax n message => if (n <? length val)%nat then Some message else None
  | ZRefine ok message => if ok val then None else Some message
  end.

Definition safeParse (schema : list ZodCheck) (val : jsstring) : list jsstring :=
  omap (run_check val) schema.

(** [result.error.errors[0]?.message || "Input error"] *)
Definition first_message (issues : list jsstring) : jsstring :=
  match issues with
  | m :: _ => if truthy m then m else of_string "Input error"
  | [] => of_string "Input error"
  end.

Definition msg_too_short : jsstring :=
  of_string "Problem must be at least 3 characters".
Definition msg_too_long : jsstring :=
  of_string "Text too long (max 500 characters)".
Definition msg_invalid : jsstring := of_string "Invalid content".

Definition no_injection (val : jsstring) : bool :=
  negb (regex_test re_injection val).

(** [problemSchema] of [FiveWhysApp.tsx]. *)
Definition problemSchema : list ZodCheck :=
  [ZMin 3 msg_too_short; ZMax 500 msg_too_long; ZRefine no_injection msg_invalid].

(** [inputSchema] of [WhyCard.tsx]. *)
Definition inputSchema : list ZodCheck :=
  [ZMax 500 msg_too_long; ZRefine no_injection msg_invalid].

Local Close Scope N_scope.

(** [`Why is "${text}" happening?`], the template literal of both
    [startAnalysis] and [handleAnswerSubmit]. *)
Definition why_question (text : jsstring) : jsstring :=
  of_string "Why is " ++ dquote :: text ++ dquote :: of_string " happening?".

(** ** The step presenter, [WhyCard.tsx] *)

Module WhyCard.

(** The two [useState] cells of a card. *)
Record State : Type := {
  inputValue : jsstring;
  error : option jsstring
}.

Definition initial : State := {| inputValue := []; error := None |}.

Definition handleInputChange (rawValue : jsstring) (c : State) : State :=
  {| inputValue := sanitizeInput rawValue; error := None |}.

(** [handleSubmit]. The card calls the [onAnswerSubmit] property, a handler
    of its parent, here a partial transformer of the parent's state [P]
    ([None]: the handler throws, and so does [handleSubmit]). *)
Definition handleSubmit {P : Type} (onAnswerSubmit : jsstring -> P -> option P)
  (c : State) (parent : P) : option (State * P) :=
  match safeParse inputSchema (inputValue c) with
  | m :: ms =>
      Some ({| inputValue := inputValue c; error := Some (first_message (m :: ms)) |},
            parent)
  | [] =>
      if truthy (trim (inputValue c))
      then parent' ← onAnswerSubmit (trim (inputValue c)) parent;
           Some ({| inputValue := []; error := error c |}, parent')
      else Some (c, parent)
  end.

End WhyCard.

(** ** The wizard controller, [FiveWhysApp.tsx] *)

Module FiveWhysApp.

Record WhyStep : Type := {
  question : jsstring;
  answer : jsstring
}.

(** The five [useState] cells of the component. *)
Record State : Type := {
  problem : jsstring;
  isStarted : bool;
  whySteps : list WhyStep;
  currentStep : nat;
  error : option jsstring
}.

Definition initial : State :=
  {| problem := []; isStarted := false; whySteps := []; currentStep := 0;
     error := None |}.

Definition handleProblemChange (value : jsstring) (s : State) : State :=
  {| problem := sanitizeInput value; isStarted := isStarted s;
     whySteps := whySteps s; currentStep := currentStep s; error := None |}.

Definition startAnalysis (s : State) : State :=
  match safeParse problemSchema (problem s) with
  | m :: ms =>
      {| problem := problem s; isStarted := isStarted s;
         whySteps := whySteps s; currentStep := currentStep s;
         error := Some (first_message (m :: ms)) |}
  | [] =>
      {| problem := problem s; isStarted := true;
         whySteps := [{| question := why_question (problem s); answer := [] |}];
         currentStep := 0; error := error s |}
  end.

(** [updatedSteps[currentStep].answer = answer] *)
Definition set_answer (a : jsstring) (st : WhyStep) : WhyStep :=
  {| question := question st; answer := a |}.

(** [handleAnswerSubmit]. Writing [.answer] of [updatedSteps[currentStep]]
    throws a TypeError when the index is out of range: [None]. The array is
    copied and the step object at the index, which the copy shares with the
    array of the previous render, is updated in place; that array is not
    read again once the new one is set. Of the two [setWhySteps] calls of
    the first branch the later one decides. *)
Definition handleAnswerSubmit (a : jsstring) (s : State) : option State :=
  match whySteps s !! currentStep s with
  | None => None
  | Some st =>
      let updatedSteps := <[currentStep s := set_answer a st]> (whySteps s) in
      if currentStep s <? 4
      then
        let nextStep := currentStep s + 1 in
        Some {| problem := problem s; isStarted := isStarted s;
                whySteps :=
                  updatedSteps ++ [{| question := why_question a; answer := [] |}];
                currentStep := nextStep; error := error s |}
      else
        Some {| problem := problem s; isStarted := isStarted s;
                whySteps := updatedSteps; currentStep := 5; error := error s |}
  end.

Definition resetAnalysis (s : State) : State :=
  {| problem := []; isStarted := false; whySteps := []; currentStep := 0;
     error := None |}.

Definition isCompleted (s : State) : bool := currentStep s =? 5.

(** *** The rendered page

    The component renders one [WhyCard] per step, keyed by its index, and
    only while [isStarted]; a card keeps its local state as long as it
    stays rendered and starts from [WhyCard.initial] when it appears. *)
Record Page : Type := {
  app : State;
  cards : list WhyCard.State
}.

Definition mount (s : State) (cs : list WhyCard.State) : list WhyCard.State :=
  if isStarted s
  then take (length (whySteps s)) cs
       ++ replicate (length (whySteps s) - length cs) WhyCard.initial
  else [].

Definition render (s : State) (cs : list WhyCard.State) : Page :=
  {| app := s; cards := mount s cs |}.

Definition initialPage : Page := render initial [].

(** The card with [isActive]: the one whose index is [currentStep]. Only
    this card shows a text area and a button. *)
Definition activeCard (p : Page) : option WhyCard.State :=
  if isStarted (app p) then cards p !! currentStep (app p) else None.

(** What the user can do. *)
Inductive Event : Type :=
| ProblemChange (value : jsstring)  (* edit the problem text area *)
| StartClick                        (* the start button *)
| AnswerChange (value : jsstring)   (* edit the active card's text area *)
| AnswerEnter                       (* Enter, without Shift, in that area *)
| AnswerClick                       (* the active card's button *)
| ResetClick.                       (* the reset button *)

Definition submit (p : Page) : option Page :=
  c ← activeCard p;
  r ← WhyCard.handleSubmit handleAnswerSubmit c (app p);
  Some (render r.2 (<[currentStep (app p) := r.1]> (cards p))).

(** [dispatch e p] is the page after the event, or [None] when the page
    does not offer the event (the control is not rendered or is disabled)
    or its handler throws. *)
Definition dispatch (e : Event) (p : Page) : option Page :=
  match e with
  | ProblemChange value =>
      if isStarted (app p) then None
      else Some (render (handleProblemChange value (app p)) (cards p))
  | StartClick =>
      if isStarted (app p) then None
      else if truthy (trim (problem (app p)))
           then Some (render (startAnalysis (app p)) (cards p))
           else None
  | AnswerChange value =>
      c ← activeCard p;
      Some {| app := app p;
              cards := <[currentStep (app p) := WhyCard.handleInputChange value c]>
                         (cards p) |}
  | AnswerEnter => submit p
  | AnswerClick =>
      c ← activeCard p;
      if truthy (trim (WhyCard.inputValue c)) then submit p else None
  | ResetClick =>
      if isStarted (app p)
      then Some (render (resetAnalysis (app p)) (cards p))
      else None
  end.

Inductive reachable : Page -> Prop :=
| reachable_initial : reachable initialPage
| reachable_dispatch (p p' : Page) (e : Event) :
    reachable p -> dispatch e p = Some p' -> reachable p'.

Fixpoint run (es : list Event) (p : Page) : option Page :=
  match es with
  | [] => Some p
  | e :: es' => p' ← dispatch e p; run es' p'
  end.

End FiveWhysApp.

(** ** Notions the properties are stated with *)

(** What remains of [s] after its first [>], if it has one. *)
Fixpoint after_gt (s : jsstring) : option jsstring :=
  match s with
  | [] => None
  | c :: s' => if (c =? gt_sign)%N then Some s' else after_gt s'
  end.

(** No [<] of [s] has a [>] somewhere after it: [s] holds no complete
    tag. *)
Fixpoint tag_free (s : jsstring) : Prop :=
  match s with
  | [] => True
  | c :: s' => (c = lt_sign -> gt_sign ∉ s') /\ tag_free s'
  end.

(** [s] neither starts nor ends with white space. *)
Definition edge_free (s : jsstring) : Prop :=
  (forall c, head s = Some c -> is_space c = false)
  /\ (forall c, last s = Some c -> is_space c = false).

(** [s] is empty or white space only. *)
Definition blank (s : jsstring) : Prop := Forall (fun c => is_space c = true) s.

(** The validity the specification describes for both texts: 3 to 500
    characters and no match of the injection pattern. *)
Definition spec_valid (v : jsstring) : Prop :=
  3 <= length v <= 500 /\ regex_test re_injection v = false.

Import FiveWhysApp.

(** A started session, and a step. *)
Definition session (p : jsstring) (e : option jsstring) (steps : list WhyStep)
  (cur : nat) : State :=
  {| problem := p; isStarted := true; whySteps := steps; currentStep := cur;
     error := e |}.

Definition step (q a : jsstring) : WhyStep := {| question := q; answer := a |}.

(** The shape of the controller's state: idle, in progress at one of the
    steps 0 to 4, or completed. *)
Definition step_shape (s : State) : Prop :=
  if isStarted s
  then (currentStep s <= 4 /\ length (whySteps s) = currentStep s + 1)
       \/ (currentStep s = 5 /\ length (whySteps s) = 5)
  else whySteps s = [] /\ currentStep s = 0.

(** A card shows a message only for a value its schema refuses. *)
Definition card_ok (c : WhyCard.State) : Prop :=
  WhyCard.error c = None \/ safeParse inputSchema (WhyCard.inputValue c) <> [].

Record page_inv (p : Page) : Prop := {
  inv_shape : step_shape (app p);
  inv_cards :
    length (cards p) = if isStarted (app p) then length (whySteps (app p)) else 0;
  inv_answers : Forall (fun st => edge_free (answer st)) (whySteps (app p));
  inv_card_ok : Forall card_ok (cards p)
}.

(** *** A sample run

    The problem of the specification's example, typed and started, then a
    first answer typed with blanks around it and entered. *)
Definition car : jsstring := of_string "Car won't start".

Definition sample_events : list Event :=
  [ProblemChange car; StartClick; AnswerChange (of_string " Battery dead ");
   AnswerEnter].

Definition sample_page : Page :=
  {| app :=
       session car None
         [step (why_question car) (of_string "Battery dead");
          step (why_question (of_string "Battery dead")) []] 1;
     cards := [WhyCard.initial; WhyCard.initial] |}.

(** ** What a card is given and what it shows *)

Module CardView.

(** [WhyCardProps], without the handler. *)
Record WhyCardProps : Type := {
  whyNumber : nat;
  question : jsstring;
  isActive : bool;
  isCompleted : bool;
  answer : jsstring
}.

Definition cardClasses : gmap nat jsstring :=
  <[1 := of_string "why-card-1"]>
    (<[2 := of_string "why-card-2"]>
       (<[3 := of_string "why-card-3"]>
          (<[4 := of_string "why-card-4"]>
             (<[5 := of_string "why-card-5"]> ∅)))).

Definition badgeClasses : gmap nat jsstring :=
  <[1 := of_string "why-badge-1"]>
    (<[2 := of_string "why-badge-2"]>
       (<[3 := of_string "why-badge-3"]>
          (<[4 := of_string "why-badge-4"]>
             (<[5 := of_string "why-badge-5"]> ∅)))).

(** [handleKeyDown]: Enter without Shift submits, any other key is left to
    the text area. *)
Definition handleKeyDown {P : Type} (key : jsstring) (shiftKey : bool)
  (onAnswerSubmit : jsstring -> P -> option P) (c : WhyCard.State) (parent : P)
  : option (WhyCard.State * P) :=
  if bool_decide (key = of_string "Enter") && negb shiftKey
  then WhyCard.handleSubmit onAnswerSubmit c parent
  else Some (c, parent).

(** The answer box: [isCompleted && answer && (...)]. *)
Definition showsAnswer (props : WhyCardProps) : bool :=
  isCompleted props && truthy (answer props).

(** The text area and the button: [isActive && (...)]. *)
Definition showsInput (props : WhyCardProps) : bool := isActive props.

(** [!isActive && !isCompleted ? "opacity-40 scale-[0.98]" : ""] *)
Definition dimmed (props : WhyCardProps) : bool :=
  negb (isActive props) && negb (isCompleted props).

(** The button's text, [whyNumber < 5 ? ... : ...]: "Continue" and an arrow,
    or "Complete" and a check mark. *)
Definition label_continue : jsstring := of_string "Continue " ++ [8594%N].
Definition label_complete : jsstring := of_string "Complete " ++ [10003%N].

Definition buttonLabel (props : WhyCardProps) : jsstring :=
  if whyNumber props <? 5 then label_continue else label_complete.

End CardView.

(** The cards of [FiveWhysApp]: [whySteps.map((step, index) => ...)], inside
    the block rendered while [isStarted]. *)
Definition cardProps (s : State) : list CardView.WhyCardProps :=
  if isStarted s
  then imap
         (fun index st =>
            {| CardView.whyNumber := index + 1;
               CardView.question := question st;
               CardView.isActive := currentStep s =? index;
               CardView.isCompleted := index <? currentStep s;
               CardView.answer := answer st |})
         (whySteps s)
  else [].

(** The completion message, [isCompleted && (...)] inside the same block. *)
Definition showsCompletion (s : State) : bool := isStarted s && isCompleted s.

(** [whySteps[4]?.answer], the root cause the message shows. *)
Definition rootCause (s : State) : option jsstring := answer <$> whySteps s !! 4.

(** ** Further notions *)

(** A pattern that cannot match the empty string, for a syntactic reason. *)
Fixpoint consuming (r : regex) : bool :=
  match r with
  | REmpty => false
  | RChar _ => true
  | RSeq r1 r2 => consuming r1 || consuming r2
  | RAlt r1 r2 => consuming r1 && consuming r2
  | RStar _ => false
  end.

(** [m] is [lit] up to the case of its ASCII letters. *)
Definition same_letters (m lit : jsstring) : Prop :=
  canonicalize <$> m = canonicalize <$> lit.

(** The three kinds of fragment the injection pattern describes: [<script],
    [javascript:], and [on], one or more word characters, [=]. *)
Definition is_fragment (m : jsstring) : Prop :=
  same_letters m (of_string "<script")
  \/ same_letters m (of_string "javascript:")
  \/ exists o w : jsstring,
       m = o ++ w ++ [eq_sign] /\ same_letters o (of_string "on")
       /\ w <> [] /\ Forall (fun c => is_word c = true) w.

Definition contains_fragment (s : jsstring) : Prop :=
  exists pre m post : jsstring, s = pre ++ m ++ post /\ is_fragment m.

(** Each question embeds the text before it: the first the problem, the
    others the answer of the step before. *)
Fixpoint chained (seed : jsstring) (steps : list WhyStep) : Prop :=
  match steps with
  | [] => True
  | st :: rest => question st = why_question seed /\ chained (answer st) rest
  end.

(** What holds of a recorded answer. *)
Definition recorded (a : jsstring) : Prop :=
  a <> [] /\ safeParse inputSchema a = [] /\ tag_free a.

(** A shown message is the one of the first check the current text fails. *)
Definition message_of (schema : list ZodCheck) (v : jsstring)
  (e : option jsstring) : Prop :=
  forall m, e = Some m ->
    safeParse schema v <> [] /\ m = first_message (safeParse schema v).

Record state_ok (s : State) : Prop := {
  ok_chain : chained (problem s) (whySteps s);
  ok_answered :
    Forall (fun st => recorded (answer st)) (take (currentStep s) (whySteps s));
  ok_pending :
    Forall (fun st => answer st = []) (drop (currentStep s) (whySteps s));
  ok_problem_tags : tag_free (problem s);
  ok_problem : isStarted s = true -> safeParse problemSchema (problem s) = [];
  ok_error : message_of problemSchema (problem s) (error s);
  ok_error_idle : isStarted s = true -> error s = None
}.

Definition card_wf (c : WhyCard.State) : Prop :=
  tag_free (WhyCard.inputValue c)
  /\ message_of inputSchema (WhyCard.inputValue c) (WhyCard.error c).

Record page_ok (p : Page) : Prop := {
  ok_state : state_ok (app p);
  ok_cards : Forall card_wf (cards p);
  ok_inactive :
    forall i c, cards p !! i = Some c -> i <> currentStep (app p) ->
                c = WhyCard.initial
}.

(** The sample run one event earlier: the first answer typed, not yet
    entered. *)
Definition typed_page : Page :=
  {| app := session car None [step (why_question car) []] 0;
     cards :=
       [{| WhyCard.inputValue := of_string " Battery dead ";
           WhyCard.error := None |}] |}.

(** A page with a refused problem text, and the page at the end of the
    example of the method's description. *)
Definition refused_page : Page :=
  {| app :=
       {| problem := of_string "ab"; isStarted := false; whySteps := [];
          currentStep := 0; error := Some msg_too_short |};
     cards := [] |}.

Definition completed_events : list Event :=
  [ProblemChange car; StartClick;
   AnswerChange (of_string "Battery dead"); AnswerEnter;
   AnswerChange (of_string "Alternator failed"); AnswerClick;
   AnswerChange (of_string "Belt broke"); AnswerEnter;
   AnswerChange (of_string "Beyond service life"); AnswerClick;
   AnswerChange (of_string "No maintenance"); AnswerEnter].

Definition completed_page : Page :=
  {| app :=
       session car None
         [step (why_question car) (of_string "Battery dead");
          step (why_question (of_string "Battery dead"))
            (of_string "Alternator failed");
          step (why_question (of_string "Alternator failed"))
            (of_string "Belt broke");
          step (why_question (of_string "Belt broke"))
            (of_string "Beyond service life");
          step (why_question (of_string "Beyond service life"))
            (of_string "No maintenance")] 5;
     cards := replicate 5 WhyCard.initial |}.

(** * Properties *)

(** ** The text functions on sample inputs *)

Example sanitizeInput_tags :
  sanitizeInput (of_string "a<b>c</b>d") = of_string "acd".
Proof. vm_compute. reflexivity. Qed.

Example sanitizeInput_nested :
  sanitizeInput (of_string "<<a>>") = of_string ">".
Proof. vm_compute. reflexivity. Qed.

Example sanitizeInput_mixed :
  sanitizeInput (of_string "x ONclick=alert JaVaScRiPt:1 on=  on_9=")
  = of_string "x alert 1 on=  ".
Proof. vm_compute. reflexivity. Qed.

Example regex_test_injection_samples :
  regex_test re_injection (of_string "a <ScRiPt") = true
  /\ regex_test re_injection (of_string "JAVASCRIPT:x") = true
  /\ regex_test re_injection (of_string "an onload=") = true
  /\ regex_test re_injection (of_string "on=") = false
  /\ regex_test re_injection (of_string "on click=") = false
  /\ regex_test re_injection car = false.
Proof. repeat split; vm_compute; reflexivity. Qed.

Example trim_sample : trim (of_string "  a b  ") = of_string "a b".
Proof. vm_compute. reflexivity. Qed.

Example safeParse_samples :
  safeParse problemSchema (of_string "ab") = [msg_too_short]
  /\ safeParse problemSchema (of_string "a<ScRipt>") = [msg_invalid]
  /\ safeParse problemSchema (of_string "<script") = [msg_invalid]
  /\ safeParse problemSchema car = [].
Proof. repeat split; vm_compute; reflexivity. Qed.

(** ** The matcher *)

Lemma or_else_Some (a b : option jsstring) (t : jsstring) :
  or_else a b = Some t -> a = Some t \/ (a = None /\ b = Some t).
Proof. destruct a; simpl; intros H; [left | right]; auto. Qed.

(** A successful match hands a suffix of the input to its continuation. *)
Lemma rmatch_suffix (r : regex) :
  forall (s : jsstring) (k : jsstring -> option jsstring) (t : jsstring),
    rmatch r s k = Some t ->
    exists s', s' `suffix_of` s /\ k s' = Some t.
Proof.
  induction r as [| p | r1 IH1 r2 IH2 | r1 IH1 r2 IH2 | r1 IH1]; intros s k t H.
  - exists s. split; [reflexivity | exact H].
  - destruct s as [| c s']; simpl in H; [discriminate |].
    destruct (p c); [| discriminate].
    exists s'. split; [apply suffix_cons_r; reflexivity | exact H].
  - simpl in H. apply IH1 in H as (s1 & Hs1 & H).
    apply IH2 in H as (s2 & Hs2 & H).
    exists s2. split; [etrans; eassumption | exact H].
  - simpl in H. apply or_else_Some in H as [H | [_ H]].
    + apply IH1 in H. exact H.
    + apply IH2 in H. exact H.
  - simpl in H. revert H. generalize (length s) at 1. intros n. revert s.
    induction n as [| n IHn]; intros s H.
    + exists s. split; [reflexivity | exact H].
    + apply or_else_Some in H as [H | [_ H]].
      * apply IH1 in H as (s1 & Hs1 & H).
        destruct (length s1 <? length s); [| discriminate].
        apply IHn in H as (s2 & Hs2 & H).
        exists s2. split; [etrans; eassumption | exact H].
      * exists s. split; [reflexivity | exact H].
Qed.

(** A continuation that fails on every suffix makes the match fail. *)
Lemma rmatch_fails (r : regex) (s : jsstring) (k : jsstring -> option jsstring) :
  (forall s', s' `suffix_of` s -> k s' = None) -> rmatch r s k = None.
Proof.
  intros Hk. destruct (rmatch r s k) as [t |] eqn:E; [| reflexivity].
  apply rmatch_suffix in E as (s' & Hs' & E). rewrite (Hk s' Hs') in E.
  discriminate.
Qed.

(** The result depends on the continuation at the suffixes of the input
    only. *)
Lemma rmatch_ext (r : regex) :
  forall (s : jsstring) (k k' : jsstring -> option jsstring),
    (forall s', s' `suffix_of` s -> k s' = k' s') ->
    rmatch r s k = rmatch r s k'.
Proof.
  induction r as [| p | r1 IH1 r2 IH2 | r1 IH1 r2 IH2 | r1 IH1]; intros s k k' H.
  - apply H. reflexivity.
  - destruct s as [| c s']; [reflexivity |]. simpl.
    destruct (p c); [| reflexivity]. apply H, suffix_cons_r. reflexivity.
  - simpl. apply IH1. intros s1 Hs1. apply IH2. intros s2 Hs2.
    apply H. etrans; eassumption.
  - simpl. rewrite (IH1 s k k' H), (IH2 s k k' H). reflexivity.
  - simpl. generalize (length s). intros n. revert s H.
    induction n as [| n IHn]; intros s H; simpl.
    + apply H. reflexivity.
    + rewrite (H s) by reflexivity. f_equal.
      apply IH1. intros s1 Hs1.
      destruct (length s1 <? length s); [| reflexivity].
      apply IHn. intros s2 Hs2. apply H. etrans; eassumption.
Qed.

(** The bound of [star_loop] is never reached: any bound from the length of
    the input on gives the same result. *)
Lemma star_loop_enough (r : regex) (k : jsstring -> option jsstring) (n : nat) :
  forall (m : nat) (s : jsstring),
    length s <= n -> length s <= m ->
    star_loop (rmatch r) k n s = star_loop (rmatch r) k m s.
Proof.
  assert (Hnil : forall m, star_loop (rmatch r) k m [] = k []).
  { intros [| m]; [reflexivity |]. simpl.
    rewrite rmatch_fails; [reflexivity |]. intros s' _.
    destruct (length s'); reflexivity. }
  induction n as [| n IH]; intros m s Hn Hm.
  - destruct s; [| simpl in Hn; lia]. rewrite !Hnil. reflexivity.
  - destruct m as [| m].
    + destruct s; [| simpl in Hm; lia]. rewrite !Hnil. reflexivity.
    + simpl. f_equal. apply rmatch_ext. intros s' Hs'.
      destruct (Nat.ltb_spec (length s') (length s)); [| reflexivity].
      apply IH; lia.
Qed.

(** The defining equation of the greedy star: one more iteration that
    consumes something, then the star again; failing that, stop. *)
Lemma rmatch_star (r : regex) (s : jsstring) (k : jsstring -> option jsstring) :
  rmatch (RStar r) s k
  = or_else
      (rmatch r s
         (fun s' => if length s' <? length s then rmatch (RStar r) s' k else None))
      (k s).
Proof.
  cbn [rmatch]. destruct s as [| c s].
  - simpl. rewrite rmatch_fails; [reflexivity |]. intros s' _.
    destruct (length s'); reflexivity.
  - cbn [length star_loop]. f_equal. apply rmatch_ext. intros s' Hs'.
    destruct (Nat.ltb_spec (length s') (S (length s))); [| reflexivity].
    apply star_loop_enough; lia.
Qed.

Lemma rexec_suffix (r : regex) (s t : jsstring) :
  rexec r s = Some t -> t `suffix_of` s.
Proof.
  intros H. apply rmatch_suffix in H as (s' & Hs' & H).
  injection H as ->. exact Hs'.
Qed.

(** ** Global replacement *)

Lemma suffix_sublist (l1 l2 : jsstring) : l1 `suffix_of` l2 -> l1 `sublist_of` l2.
Proof. intros [k ->]. apply sublist_inserts_l. reflexivity. Qed.

(** Replacing by the empty string only deletes characters. *)
Lemma replace_fuel_sublist (r : regex) (fuel : nat) :
  forall s : jsstring, replace_fuel fuel r s `sublist_of` s.
Proof.
  induction fuel as [| fuel IH]; intros s; simpl; [reflexivity |].
  destruct s as [| c s']; [reflexivity |].
  destruct (rexec r (c :: s')) as [rest |] eqn:E.
  - destruct (length rest <? length (c :: s')).
    + etrans; [apply IH |]. apply suffix_sublist, rexec_suffix with r. exact E.
    + apply sublist_skip, IH.
  - apply sublist_skip, IH.
Qed.

Lemma replace_all_sublist (r : regex) (s : jsstring) :
  replace_all r s `sublist_of` s.
Proof. apply replace_fuel_sublist. Qed.

(** The fuel of [replace_all] is never used up: more of it changes nothing. *)
Lemma replace_fuel_enough (r : regex) (n : nat) :
  forall (m : nat) (s : jsstring),
    length s <= n -> length s <= m -> replace_fuel n r s = replace_fuel m r s.
Proof.
  induction n as [| n IH]; intros m s Hn Hm.
  - destruct s; [| simpl in Hn; lia]. destruct m; reflexivity.
  - destruct s as [| c s']; [destruct m; reflexivity |].
    destruct m as [| m]; [simpl in Hm; lia |].
    simpl in Hn, Hm. simpl.
    destruct (rexec r (c :: s')) as [rest |] eqn:E.
    + destruct (length rest <? S (length s')) eqn:El.
      * apply Nat.ltb_lt in El. apply IH; lia.
      * f_equal. apply IH; lia.
    + f_equal. apply IH; lia.
Qed.

Lemma sanitizeInput_sublist (value : jsstring) :
  sanitizeInput value `sublist_of` value.
Proof.
  unfold sanitizeInput.
  etrans; [apply replace_all_sublist |].
  etrans; [apply replace_all_sublist |].
  apply replace_all_sublist.
Qed.

(** ** The tag pattern *)

Lemma rmatch_star_char_nil (p : N -> bool) (k : jsstring -> option jsstring) :
  rmatch (RStar (RChar p)) [] k = k [].
Proof. reflexivity. Qed.

(** One step of the greedy star over a character class. *)
Lemma rmatch_star_char_cons (p : N -> bool) (c : N) (s : jsstring)
  (k : jsstring -> option jsstring) :
  rmatch (RStar (RChar p)) (c :: s) k
  = or_else (if p c then rmatch (RStar (RChar p)) s k else None) (k (c :: s)).
Proof.
  rewrite rmatch_star. cbn [rmatch length].
  replace (length s <? S (length s)) with true
    by (symmetry; apply Nat.ltb_lt; lia).
  reflexivity.
Qed.

Lemma rmatch_tag_body (s : jsstring) :
  rmatch (RStar (RChar (fun c => negb (c =? gt_sign)%N))) s
    (fun s' => rmatch (rchar gt_sign) s' Some)
  = after_gt s.
Proof.
  induction s as [| c s IH]; [reflexivity |].
  rewrite rmatch_star_char_cons, IH. simpl.
  destruct (c =? gt_sign)%N; simpl; [reflexivity |].
  destruct (after_gt s); reflexivity.
Qed.

Lemma rexec_tag_nil : rexec re_tag [] = None.
Proof. reflexivity. Qed.

(** [<[^>]*>] matches at a [<] that has a [>] after it, up to the first
    such [>]. *)
Lemma rexec_tag_cons (c : N) (s : jsstring) :
  rexec re_tag (c :: s) = if (c =? lt_sign)%N then after_gt s else None.
Proof.
  unfold rexec, re_tag. cbn [rmatch rchar].
  destruct (c =? lt_sign)%N; [| reflexivity].
  apply rmatch_tag_body.
Qed.

Lemma after_gt_suffix (s t : jsstring) : after_gt s = Some t -> t `suffix_of` s.
Proof.
  induction s as [| c s IH]; simpl; [discriminate |].
  destruct (c =? gt_sign)%N.
  - intros [= ->]. apply suffix_cons_r. reflexivity.
  - intros H. apply suffix_cons_r, IH, H.
Qed.

Lemma after_gt_None (s : jsstring) : after_gt s = None <-> gt_sign ∉ s.
Proof.
  induction s as [| c s IH]; simpl.
  - split; [intros _; apply not_elem_of_nil | reflexivity].
  - rewrite not_elem_of_cons. destruct (c =? gt_sign)%N eqn:E.
    + apply N.eqb_eq in E. split; [discriminate | intros [H _]; congruence].
    + apply N.eqb_neq in E. rewrite IH. split; [intros H; split; congruence | tauto].
Qed.

Lemma regex_test_tag_false (s : jsstring) :
  regex_test re_tag s = false <-> tag_free s.
Proof.
  induction s as [| c s IH]; cbn [regex_test tag_free].
  - rewrite rexec_tag_nil. tauto.
  - rewrite rexec_tag_cons. destruct (c =? lt_sign)%N eqn:E.
    + apply N.eqb_eq in E.
      destruct (after_gt s) as [t |] eqn:Ea.
      * split; [discriminate |]. intros [H _].
        apply after_gt_None in H; [congruence | exact E].
      * rewrite IH. apply after_gt_None in Ea. tauto.
    + apply N.eqb_neq in E. rewrite IH. tauto.
Qed.

(** Deleting characters cannot complete a tag. *)
Lemma tag_free_sublist (t s : jsstring) :
  t `sublist_of` s -> tag_free s -> tag_free t.
Proof.
  induction 1 as [| x l1 l2 Hsub IH | x l1 l2 Hsub IH]; simpl.
  - trivial.
  - intros [Hx Hfree]. split; [| apply IH, Hfree].
    intros -> Hin. apply Hx; [reflexivity |].
    apply (sublist_subseteq _ _ Hsub), Hin.
  - intros [_ Hfree]. apply IH, Hfree.
Qed.

Lemma replace_fuel_tag_free (fuel : nat) :
  forall s : jsstring, length s <= fuel -> tag_free (replace_fuel fuel re_tag s).
Proof.
  induction fuel as [| fuel IH]; intros s Hlen.
  - destruct s; [exact I | simpl in Hlen; lia].
  - destruct s as [| c s']; [exact I |].
    simpl in Hlen. cbn [replace_fuel]. rewrite rexec_tag_cons.
    destruct (c =? lt_sign)%N eqn:E.
    + destruct (after_gt s') as [rest |] eqn:Ea.
      * pose proof (suffix_length _ _ (after_gt_suffix _ _ Ea)) as Hrest.
        replace (length rest <? length (c :: s')) with true
          by (symmetry; apply Nat.ltb_lt; simpl; lia).
        apply IH. lia.
      * split; [| apply IH; lia].
        intros _ Hin. apply after_gt_None in Ea. apply Ea.
        apply (sublist_subseteq _ _ (replace_fuel_sublist re_tag fuel s')), Hin.
    + apply N.eqb_neq in E. split; [congruence | apply IH; lia].
Qed.

Lemma sanitizeInput_tag_free (value : jsstring) : tag_free (sanitizeInput value).
Proof.
  unfold sanitizeInput.
  eapply tag_free_sublist;
    [etrans; [apply replace_all_sublist | apply replace_all_sublist] |].
  apply replace_fuel_tag_free. reflexivity.
Qed.

(** [tag_free], by positions. *)
Lemma tag_free_lookup (s : jsstring) :
  tag_free s <->
  forall i j : nat, i < j -> s !! i = Some lt_sign -> s !! j <> Some gt_sign.
Proof.
  induction s as [| c s IH]; simpl.
  - split; [intros _ i j _ H; discriminate | trivial].
  - rewrite IH. split.
    + intros [Hc Hs] i j Hij Hi Hj.
      destruct j as [| j]; [lia |]. simpl in Hj.
      destruct i as [| i]; simpl in Hi.
      * injection Hi as ->. apply Hc; [reflexivity |].
        apply list_elem_of_lookup_2 with j, Hj.
      * apply (Hs i j); [lia | assumption | assumption].
    + intros H. split.
      * intros -> Hin. apply list_elem_of_lookup_1 in Hin as [j Hj].
        apply (H 0 (S j)); [lia | reflexivity | exact Hj].
      * intros i j Hij Hi Hj. apply (H (S i) (S j)); [lia | exact Hi | exact Hj].
Qed.

(** ** Trimming *)

Lemma trimStart_suffix (s : jsstring) : trimStart s `suffix_of` s.
Proof.
  induction s as [| c s IH]; simpl; [reflexivity |].
  destruct (is_space c); [apply suffix_cons_r, IH | reflexivity].
Qed.

Lemma trimStart_head (s : jsstring) (c : N) :
  head (trimStart s) = Some c -> is_space c = false.
Proof.
  induction s as [| x s IH]; simpl; [discriminate |].
  destruct (is_space x) eqn:E; [exact IH |].
  simpl. intros [= <-]. exact E.
Qed.

Lemma trimStart_nil (s : jsstring) : trimStart s = [] <-> blank s.
Proof.
  unfold blank. induction s as [| x s IH]; simpl.
  - split; [constructor | reflexivity].
  - rewrite Forall_cons. destruct (is_space x) eqn:E.
    + rewrite IH. tauto.
    + split; [discriminate | intros [H _]; discriminate].
Qed.

Lemma suffix_last (t s : jsstring) :
  t `suffix_of` s -> t <> [] -> last t = last s.
Proof.
  intros [k ->] Hne. rewrite last_app.
  destruct (last t) eqn:E; [reflexivity |].
  apply last_None in E. contradiction.
Qed.

Lemma blank_reverse (s : jsstring) : blank (reverse s) <-> blank s.
Proof.
  unfold blank. rewrite !Forall_forall.
  split; intros H c Hc; apply H; [rewrite elem_of_reverse | rewrite <- elem_of_reverse];
    exact Hc.
Qed.

Lemma trim_edge_free (s : jsstring) : edge_free (trim s).
Proof.
  unfold trim, trimEnd. set (t := trimStart s). split; intros c Hc.
  - rewrite head_reverse in Hc.
    assert (Hne : trimStart (reverse t) <> []) by (intros E; rewrite E in Hc; discriminate).
    rewrite (suffix_last _ _ (trimStart_suffix (reverse t)) Hne) in Hc.
    rewrite last_reverse in Hc. apply trimStart_head with s. exact Hc.
  - rewrite last_reverse in Hc. apply trimStart_head with (reverse t). exact Hc.
Qed.

(** [trim] yields the empty string exactly on blank strings. *)
Lemma trim_truthy_false (s : jsstring) : truthy (trim s) = false <-> blank s.
Proof.
  assert (Hnil : forall l : jsstring, truthy l = false <-> l = [])
    by (intros [| x l]; simpl; split; congruence).
  rewrite Hnil. unfold trim, trimEnd. split.
  - intros H. apply (f_equal reverse) in H.
    rewrite reverse_involutive, reverse_nil in H.
    apply trimStart_nil in H. apply (proj1 (blank_reverse _)) in H.
    destruct (trimStart s) as [| c t] eqn:E; [apply trimStart_nil, E |].
    pose proof (trimStart_head s c) as Hc. rewrite E in Hc.
    specialize (Hc eq_refl). apply Forall_cons in H as [H _]. congruence.
  - intros H. apply trimStart_nil in H. rewrite H. reflexivity.
Qed.

(** ** The injection pattern *)

Lemma rmatch_lit_i_cons (x : N) (l : jsstring) (c : N) (s : jsstring)
  (k : jsstring -> option jsstring) :
  rmatch (rlit_i (x :: l)) (c :: s) k
  = if (canonicalize c =? canonicalize x)%N then rmatch (rlit_i l) s k else None.
Proof. reflexivity. Qed.

Ltac bool_to_prop :=
  repeat match goal with
    | H : _ || _ = true |- _ => apply orb_true_iff in H; destruct H as [H | H]
    | H : _ && _ = true |- _ => apply andb_true_iff in H; destruct H
    | H : (_ =? _)%N = true |- _ => apply N.eqb_eq in H
    | H : (_ <=? _)%N = true |- _ => apply N.leb_le in H
    | H : (_ =? _)%N = false |- _ => apply N.eqb_neq in H
    | H : (_ <=? _)%N = false |- _ => apply N.leb_gt in H
    end.

(** White space starts none of the three alternatives. *)
Lemma space_not_initial (c x : N) :
  is_space c = true -> x ∈ [60; 106; 111]%N ->
  (canonicalize c =? canonicalize x)%N = false.
Proof.
  intros Hc Hx. apply N.eqb_neq. intros E.
  unfold is_space in Hc. unfold canonicalize in E.
  repeat (apply elem_of_cons in Hx as [-> | Hx]);
    [| | | apply elem_of_nil in Hx; contradiction];
    simpl in E;
    destruct ((97 <=? c)%N && (c <=? 122)%N) eqn:Ec;
    bool_to_prop; lia.
Qed.

Lemma rexec_injection_space (c : N) (s : jsstring) :
  is_space c = true -> rexec re_injection (c :: s) = None.
Proof.
  intros Hc. unfold rexec, re_injection.
  cbn [rmatch of_string N_of_ascii N_of_digits].
  rewrite !rmatch_lit_i_cons.
  rewrite !(space_not_initial c _ Hc); [reflexivity | | |];
    repeat constructor.
Qed.

Lemma regex_test_injection_blank (s : jsstring) :
  blank s -> regex_test re_injection s = false.
Proof.
  induction 1 as [| c s Hc _ IH]; [reflexivity |].
  cbn [regex_test]. rewrite (rexec_injection_space c s Hc). exact IH.
Qed.

(** ** The schemas *)

Lemma safeParse_problemSchema (v : jsstring) :
  safeParse problemSchema v
  = (if length v <? 3 then [msg_too_short] else [])
    ++ (if 500 <? length v then [msg_too_long] else [])
    ++ (if regex_test re_injection v then [msg_invalid] else []).
Proof.
  unfold safeParse, problemSchema, no_injection. cbn [omap list_omap run_check].
  destruct (length v <? 3), (500 <? length v), (regex_test re_injection v);
    reflexivity.
Qed.

Lemma safeParse_inputSchema (v : jsstring) :
  safeParse inputSchema v
  = (if 500 <? length v then [msg_too_long] else [])
    ++ (if regex_test re_injection v then [msg_invalid] else []).
Proof.
  unfold safeParse, inputSchema, no_injection. cbn [omap list_omap run_check].
  destruct (500 <? length v), (regex_test re_injection v); reflexivity.
Qed.

Lemma problemSchema_accepts (v : jsstring) :
  safeParse problemSchema v = [] <-> spec_valid v.
Proof.
  rewrite safeParse_problemSchema. unfold spec_valid.
  destruct (Nat.ltb_spec (length v) 3), (Nat.ltb_spec 500 (length v)),
    (regex_test re_injection v); simpl; split; intros Hv;
    first [discriminate | reflexivity | split; [lia | reflexivity]
          | destruct Hv as [? ?]; first [lia | discriminate]].
Qed.

Lemma inputSchema_accepts (v : jsstring) :
  safeParse inputSchema v = []
  <-> length v <= 500 /\ regex_test re_injection v = false.
Proof.
  rewrite safeParse_inputSchema.
  destruct (Nat.ltb_spec 500 (length v)), (regex_test re_injection v); simpl;
    split; intros Hv;
    first [discriminate | reflexivity | split; [lia | reflexivity]
          | destruct Hv as [? ?]; first [lia | discriminate]].
Qed.

(** ** The controller *)

(** C1. From a freshly started session (one unanswered step, index 0) five
    calls of [handleAnswerSubmit] succeed in sequence: each of the first four
    records its answer on the current step, appends a step whose question is
    [Why is "<answer>" happening?] with that answer between the quotes, and
    advances the index by one; the fifth records its answer and sets the
    index to 5 without appending. The session ends completed with exactly
    five steps. This holds for any five answers, the valid ones among
    them. *)
Theorem five_answers_complete (p q : jsstring) (e : option jsstring)
  (a1 a2 a3 a4 a5 : jsstring) :
  let w := fun a : jsstring =>
             of_string "Why is " ++ [dquote] ++ a ++ [dquote]
             ++ of_string " happening?" in
  handleAnswerSubmit a1 (session p e [step q []] 0)
  = Some (session p e [step q a1; step (w a1) []] 1)
  /\ handleAnswerSubmit a2 (session p e [step q a1; step (w a1) []] 1)
     = Some (session p e [step q a1; step (w a1) a2; step (w a2) []] 2)
  /\ handleAnswerSubmit a3
       (session p e [step q a1; step (w a1) a2; step (w a2) []] 2)
     = Some (session p e
               [step q a1; step (w a1) a2; step (w a2) a3; step (w a3) []] 3)
  /\ handleAnswerSubmit a4
       (session p e [step q a1; step (w a1) a2; step (w a2) a3; step (w a3) []] 3)
     = Some (session p e
               [step q a1; step (w a1) a2; step (w a2) a3; step (w a3) a4;
                step (w a4) []] 4)
  /\ handleAnswerSubmit a5
       (session p e
          [step q a1; step (w a1) a2; step (w a2) a3; step (w a3) a4;
           step (w a4) []] 4)
     = Some (session p e
               [step q a1; step (w a1) a2; step (w a2) a3; step (w a3) a4;
                step (w a4) a5] 5)
  /\ isCompleted
       (session p e
          [step q a1; step (w a1) a2; step (w a2) a3; step (w a3) a4;
           step (w a4) a5] 5) = true
  /\ length [step q a1; step (w a1) a2; step (w a2) a3; step (w a3) a4;
             step (w a4) a5] = 5.
Proof. intros w. repeat split. Qed.

(** C2. For a valid problem text (3 to 500 characters, no match of the
    injection pattern) [startAnalysis] succeeds: the session is started with
    exactly one step, whose question is [Why is "<problem>" happening?] and
    whose answer is empty, at index 0. *)
Theorem startAnalysis_valid (s : State)
  (Hlen : 3 <= length (problem s) <= 500)
  (Hinj : regex_test re_injection (problem s) = false) :
  startAnalysis s
  = {| problem := problem s; isStarted := true;
       whySteps :=
         [{| question :=
               of_string "Why is " ++ [dquote] ++ problem s ++ [dquote]
               ++ of_string " happening?";
             answer := [] |}];
       currentStep := 0; error := error s |}.
Proof.
  unfold startAnalysis.
  rewrite (proj2 (problemSchema_accepts (problem s)) (conj Hlen Hinj)).
  reflexivity.
Qed.

(** The example of the specification: the problem "Car won't start". *)
Lemma startAnalysis_valid_witness :
  problem (handleProblemChange (of_string "Car won't start") initial)
  = of_string "Car won't start"
  /\ whySteps
       (startAnalysis (handleProblemChange (of_string "Car won't start") initial))
     = [{| question :=
             of_string "Why is " ++ [dquote] ++ of_string "Car won't start"
             ++ [dquote] ++ of_string " happening?";
           answer := [] |}].
Proof.
  split; [vm_compute; reflexivity |].
  rewrite (startAnalysis_valid
             (handleProblemChange (of_string "Car won't start") initial));
    [reflexivity | vm_compute; lia | vm_compute; reflexivity].
Defined.

(** C4. For an invalid problem text (shorter than 3 characters, longer than
    500, or matching the injection pattern) [startAnalysis] sets the error
    message of the first failed check and leaves the problem text, the
    started flag, the steps and the index as they were. *)
Theorem startAnalysis_invalid (s : State)
  (Hbad : length (problem s) < 3 \/ 500 < length (problem s)
          \/ regex_test re_injection (problem s) = true) :
  startAnalysis s
  = {| problem := problem s; isStarted := isStarted s; whySteps := whySteps s;
       currentStep := currentStep s;
       error :=
         Some (if length (problem s) <? 3 then msg_too_short
               else if 500 <? length (problem s) then msg_too_long
                    else msg_invalid) |}.
Proof.
  unfold startAnalysis. rewrite safeParse_problemSchema.
  destruct (Nat.ltb_spec (length (problem s)) 3),
    (Nat.ltb_spec 500 (length (problem s))),
    (regex_test re_injection (problem s)) eqn:E; simpl;
    first [reflexivity | exfalso; destruct Hbad as [? | [? | ?]]; first [lia | discriminate]].
Qed.

Lemma startAnalysis_invalid_witness :
  problem (handleProblemChange (of_string "a <script x") initial)
  = of_string "a <script x"
  /\ startAnalysis (handleProblemChange (of_string "a <script x") initial)
     = {| problem := of_string "a <script x"; isStarted := false; whySteps := [];
          currentStep := 0; error := Some (of_string "Invalid content") |}.
Proof.
  split; [vm_compute; reflexivity |].
  rewrite (startAnalysis_invalid
             (handleProblemChange (of_string "a <script x") initial));
    [vm_compute; reflexivity |].
  right. right. vm_compute. reflexivity.
Defined.

(** C8. [resetAnalysis] returns, from any state whatever, the initial state:
    not started, empty problem text, no steps, index 0, no error message. *)
Theorem resetAnalysis_initial (s : State) :
  resetAnalysis s
  = {| problem := []; isStarted := false; whySteps := []; currentStep := 0;
       error := None |}
  /\ resetAnalysis s = initial.
Proof. split; reflexivity. Qed.

(** On the page, the reset button also discards the cards. *)
Lemma dispatch_ResetClick (p : Page) :
  isStarted (app p) = true -> dispatch ResetClick p = Some initialPage.
Proof. intros H. simpl. rewrite H. reflexivity. Qed.

(** ** The page: what every reachable page satisfies *)

Lemma edge_free_nil : edge_free [].
Proof. split; intros c H; discriminate. Qed.

Lemma mount_length (s : State) (cs : list WhyCard.State) :
  length (mount s cs) = if isStarted s then length (whySteps s) else 0.
Proof.
  unfold mount. destruct (isStarted s); [| reflexivity].
  rewrite length_app, length_take, length_replicate. lia.
Qed.

Lemma mount_card_ok (s : State) (cs : list WhyCard.State) :
  Forall card_ok cs -> Forall card_ok (mount s cs).
Proof.
  intros H. unfold mount. destruct (isStarted s); [| constructor].
  apply Forall_app. split; [apply Forall_take, H |].
  apply Forall_replicate. left. reflexivity.
Qed.

Lemma render_inv (s : State) (cs : list WhyCard.State) :
  step_shape s ->
  Forall (fun st => edge_free (answer st)) (whySteps s) ->
  Forall card_ok cs ->
  page_inv (render s cs).
Proof.
  intros Hshape Hans Hcards. split; simpl;
    [exact Hshape | apply mount_length | exact Hans | apply mount_card_ok, Hcards].
Qed.

(** Mounting the cards of an unchanged list of steps keeps them. *)
Lemma mount_same (s : State) (cs : list WhyCard.State) :
  length cs = (if isStarted s then length (whySteps s) else 0) -> mount s cs = cs.
Proof.
  unfold mount. destruct (isStarted s); intros H.
  - rewrite <- H, Nat.sub_diag, firstn_all. apply app_nil_r.
  - symmetry. apply length_zero_iff_nil, H.
Qed.

Lemma page_inv_initial : page_inv initialPage.
Proof.
  apply render_inv; [split; reflexivity | constructor | constructor].
Qed.

(** A successful [handleAnswerSubmit] keeps the shape and moves the index
    forward. *)
Lemma handleAnswerSubmit_shape (a : jsstring) (s s' : State) :
  step_shape s -> isStarted s = true -> handleAnswerSubmit a s = Some s' ->
  step_shape s' /\ isStarted s' = true /\ currentStep s < currentStep s'
  /\ (edge_free a -> Forall (fun st => edge_free (answer st)) (whySteps s) ->
      Forall (fun st => edge_free (answer st)) (whySteps s')).
Proof.
  unfold step_shape, handleAnswerSubmit. intros Hshape Hst. rewrite Hst in Hshape.
  destruct (whySteps s !! currentStep s) as [st |] eqn:Est; [| discriminate].
  apply lookup_lt_Some in Est.
  destruct (Nat.ltb_spec (currentStep s) 4) as [Hlt | Hge]; intros [= <-]; simpl;
    rewrite Hst.
  - repeat split; [| lia |].
    + left. rewrite length_app, length_insert. simpl. lia.
    + intros Ha Hall. apply Forall_app. split.
      * apply Forall_insert; [exact Hall | exact Ha].
      * repeat constructor; simpl; apply edge_free_nil.
  - repeat split; [| lia |].
    + right. rewrite length_insert. lia.
    + intros Ha Hall. apply Forall_insert; [exact Hall | exact Ha].
Qed.

Lemma startAnalysis_shape (s : State) :
  isStarted s = false -> step_shape s ->
  Forall (fun st => edge_free (answer st)) (whySteps s) ->
  step_shape (startAnalysis s)
  /\ Forall (fun st => edge_free (answer st)) (whySteps (startAnalysis s)).
Proof.
  intros Hst Hshape Hans. unfold startAnalysis.
  destruct (safeParse problemSchema (problem s)) as [| m ms].
  - split; [left; simpl; lia |]. repeat constructor; simpl; apply edge_free_nil.
  - split; [exact Hshape | exact Hans].
Qed.

(** The active card sits at an index of a step still to be answered. *)
Lemma activeCard_index (p : Page) (c : WhyCard.State) :
  page_inv p -> activeCard p = Some c ->
  isStarted (app p) = true /\ cards p !! currentStep (app p) = Some c
  /\ currentStep (app p) <= 4
  /\ length (whySteps (app p)) = currentStep (app p) + 1.
Proof.
  intros [Hshape Hlen _ _] Hc. unfold activeCard in Hc. unfold step_shape in Hshape.
  destruct (isStarted (app p)); [| discriminate].
  pose proof (lookup_lt_Some _ _ _ Hc) as Hlt.
  repeat split; [exact Hc | lia | lia].
Qed.

Lemma submit_inv (p p' : Page) :
  page_inv p -> submit p = Some p' -> page_inv p'.
Proof.
  intros Hinv Hsub. unfold submit in Hsub.
  destruct (activeCard p) as [c |] eqn:Ec; [| discriminate]. simpl in Hsub.
  destruct (activeCard_index p c Hinv Ec) as (Hst & Hc & Hcur & Hlen).
  destruct Hinv as [Hshape Hcards Hans Hok].
  assert (Hcok : card_ok c).
  { eapply Forall_lookup_1 in Hok; eassumption. }
  unfold WhyCard.handleSubmit in Hsub.
  destruct (safeParse inputSchema (WhyCard.inputValue c)) as [| m ms] eqn:Eparse.
  - destruct (truthy (trim (WhyCard.inputValue c))).
    + destruct (handleAnswerSubmit (trim (WhyCard.inputValue c)) (app p))
        as [s' |] eqn:Es; [| discriminate].
      simpl in Hsub. injection Hsub as <-.
      destruct (handleAnswerSubmit_shape _ _ _ Hshape Hst Es) as (H1 & _ & _ & H2).
      apply render_inv; [exact H1 | apply H2; [apply trim_edge_free | exact Hans] |].
      apply Forall_insert; [exact Hok |].
      left. simpl. destruct Hcok as [E | E]; [exact E | contradiction].
    + simpl in Hsub. injection Hsub as <-.
      apply render_inv; [exact Hshape | exact Hans |].
      apply Forall_insert; [exact Hok | exact Hcok].
  - simpl in Hsub. injection Hsub as <-.
    apply render_inv; [exact Hshape | exact Hans |].
    apply Forall_insert; [exact Hok |].
    right. change (safeParse inputSchema (WhyCard.inputValue c) <> []).
    rewrite Eparse. discriminate.
Qed.

Lemma dispatch_inv (e : Event) (p p' : Page) :
  page_inv p -> dispatch e p = Some p' -> page_inv p'.
Proof.
  intros Hinv Hd. destruct e; simpl in Hd.
  - destruct Hinv as [Hshape Hcards Hans Hok].
    destruct (isStarted (app p)) eqn:Hst; [discriminate |]. injection Hd as <-.
    apply render_inv; [| exact Hans | exact Hok].
    unfold step_shape in *. simpl. rewrite Hst in *. exact Hshape.
  - destruct Hinv as [Hshape Hcards Hans Hok].
    destruct (isStarted (app p)) eqn:Hst; [discriminate |].
    destruct (truthy (trim (problem (app p)))); [| discriminate].
    injection Hd as <-.
    destruct (startAnalysis_shape (app p) Hst Hshape Hans) as [H1 H2].
    apply render_inv; [exact H1 | exact H2 | exact Hok].
  - destruct (activeCard p) as [c |] eqn:Ec; [| discriminate].
    simpl in Hd. injection Hd as <-.
    destruct Hinv as [Hshape Hcards Hans Hok].
    split; simpl; [exact Hshape | rewrite length_insert; exact Hcards | exact Hans |].
    apply Forall_insert; [exact Hok | left; reflexivity].
  - apply submit_inv with p; assumption.
  - destruct (activeCard p) as [c |]; [| discriminate]. simpl in Hd.
    destruct (truthy (trim (WhyCard.inputValue c))); [| discriminate].
    apply submit_inv with p; assumption.
  - destruct (isStarted (app p)); [| discriminate]. injection Hd as <-.
    destruct Hinv as [_ _ _ Hok].
    apply render_inv; [split; reflexivity | constructor | exact Hok].
Qed.

Lemma reachable_inv (p : Page) : reachable p -> page_inv p.
Proof.
  induction 1 as [| p p' e _ IH Hd]; [apply page_inv_initial |].
  apply dispatch_inv with e p; assumption.
Qed.

Lemma run_reachable (es : list Event) :
  forall p p' : Page, reachable p -> run es p = Some p' -> reachable p'.
Proof.
  induction es as [| e es IH]; intros p p' Hp Hrun; simpl in Hrun.
  - injection Hrun as <-. exact Hp.
  - destruct (dispatch e p) as [p1 |] eqn:E; [| discriminate].
    apply IH with p1; [apply reachable_dispatch with p e; assumption | exact Hrun].
Qed.

Lemma sample_page_run : run sample_events initialPage = Some sample_page.
Proof. vm_compute. reflexivity. Qed.

(** The example of the method's description, played to the end. *)
Example full_run :
  run [ProblemChange car; StartClick;
       AnswerChange (of_string "Battery dead"); AnswerEnter;
       AnswerChange (of_string "Alternator failed"); AnswerClick;
       AnswerChange (of_string "Belt broke"); AnswerEnter;
       AnswerChange (of_string "Beyond service life"); AnswerClick;
       AnswerChange (of_string "No maintenance"); AnswerEnter] initialPage
  = Some {| app :=
              session car None
                [step (why_question car) (of_string "Battery dead");
                 step (why_question (of_string "Battery dead"))
                   (of_string "Alternator failed");
                 step (why_question (of_string "Alternator failed"))
                   (of_string "Belt broke");
                 step (why_question (of_string "Belt broke"))
                   (of_string "Beyond service life");
                 step (why_question (of_string "Beyond service life"))
                   (of_string "No maintenance")] 5;
            cards := replicate 5 WhyCard.initial |}.
Proof. vm_compute. reflexivity. Qed.

(** Once completed, no card is active: nothing can be typed or submitted. *)
Example completed_no_submit :
  forall p : Page,
    page_inv p -> isCompleted (app p) = true ->
    activeCard p = None /\ dispatch AnswerEnter p = None.
Proof.
  intros p Hinv Hc. unfold isCompleted in Hc. apply Nat.eqb_eq in Hc.
  assert (H : activeCard p = None).
  { destruct (activeCard p) as [c |] eqn:E; [| reflexivity].
    destruct (activeCard_index p c Hinv E) as (_ & _ & Hcur & _). lia. }
  split; [exact H |]. cbn [dispatch]. unfold submit. rewrite H. reflexivity.
Qed.

Lemma sample_page_reachable : reachable sample_page.
Proof.
  apply (run_reachable sample_events initialPage);
    [apply reachable_initial | apply sample_page_run].
Qed.

Lemma submit_forward (p p' : Page) :
  page_inv p -> submit p = Some p' ->
  currentStep (app p) <= currentStep (app p').
Proof.
  intros Hinv Hsub. unfold submit in Hsub.
  destruct (activeCard p) as [c |] eqn:Ec; [| discriminate]. simpl in Hsub.
  destruct (activeCard_index p c Hinv Ec) as (Hst & _).
  unfold WhyCard.handleSubmit in Hsub.
  destruct (safeParse inputSchema (WhyCard.inputValue c)) as [| m ms].
  - destruct (truthy (trim (WhyCard.inputValue c))).
    + destruct (handleAnswerSubmit (trim (WhyCard.inputValue c)) (app p))
        as [s' |] eqn:Es; [| discriminate].
      simpl in Hsub. injection Hsub as <-. simpl.
      destruct (handleAnswerSubmit_shape _ _ _ (inv_shape p Hinv) Hst Es)
        as (_ & _ & Hlt & _).
      lia.
    + simpl in Hsub. injection Hsub as <-. reflexivity.
  - simpl in Hsub. injection Hsub as <-. reflexivity.
Qed.

(** C3. On every reachable page: while the analysis is in progress the
    number of steps is the index plus one; the index is between 0 and 5, and
    at 5 (completed) there are five steps; no event other than the reset
    moves the index backward, and a recorded answer moves it forward. *)
Theorem reachable_shape (p : Page) (Hp : reachable p) :
  (isStarted (app p) = true -> isCompleted (app p) = false ->
   length (whySteps (app p)) = currentStep (app p) + 1)
  /\ 0 <= currentStep (app p) <= 5
  /\ (isStarted (app p) = true -> isCompleted (app p) = true ->
      length (whySteps (app p)) = 5)
  /\ (isStarted (app p) = false ->
      whySteps (app p) = [] /\ currentStep (app p) = 0)
  /\ (forall (e : Event) (p' : Page),
        dispatch e p = Some p' -> e <> ResetClick ->
        currentStep (app p) <= currentStep (app p'))
  /\ (forall (a : jsstring) (s' : State),
        isStarted (app p) = true -> handleAnswerSubmit a (app p) = Some s' ->
        currentStep (app p) < currentStep s').
Proof.
  pose proof (reachable_inv p Hp) as Hinv.
  pose proof (inv_shape p Hinv) as Hshape. unfold step_shape, isCompleted in *.
  repeat split.
  - intros Hst Hc. rewrite Hst in Hshape. apply Nat.eqb_neq in Hc. lia.
  - lia.
  - destruct (isStarted (app p)); lia.
  - intros Hst Hc. rewrite Hst in Hshape. apply Nat.eqb_eq in Hc. lia.
  - rewrite H in Hshape. tauto.
  - rewrite H in Hshape. tauto.
  - intros e p' Hd Hne. destruct e; simpl in Hd.
    + destruct (isStarted (app p)); [discriminate |]. injection Hd as <-.
      reflexivity.
    + destruct (isStarted (app p)); [discriminate |]. lia.
    + destruct (activeCard p); [| discriminate]. simpl in Hd.
      injection Hd as <-. reflexivity.
    + apply submit_forward; assumption.
    + destruct (activeCard p) as [c |]; [| discriminate]. simpl in Hd.
      destruct (truthy (trim (WhyCard.inputValue c))); [| discriminate].
      apply submit_forward; assumption.
    + contradiction.
  - intros a s' Hst Hs.
    destruct (handleAnswerSubmit_shape a _ _ (inv_shape p Hinv) Hst Hs)
      as (_ & _ & Hlt & _).
    exact Hlt.
Qed.

Lemma reachable_shape_witness :
  reachable sample_page
  /\ length (whySteps (app sample_page)) = currentStep (app sample_page) + 1
  /\ 0 <= currentStep (app sample_page) <= 5.
Proof.
  split; [apply sample_page_reachable |].
  destruct (reachable_shape sample_page sample_page_reachable) as (H1 & H2 & _).
  split; [apply H1; reflexivity | exact H2].
Defined.

Lemma answer_index_in_range_aux (p : Page) :
  page_inv p -> isStarted (app p) = true -> currentStep (app p) <= 4 ->
  forall a : jsstring, is_Some (handleAnswerSubmit a (app p)).
Proof.
  intros Hinv Hst Hcur a. pose proof (inv_shape p Hinv) as Hshape.
  unfold step_shape in Hshape. rewrite Hst in Hshape.
  assert (Hlt : currentStep (app p) < length (whySteps (app p))) by lia.
  unfold handleAnswerSubmit.
  destruct (lookup_lt_is_Some_2 _ _ Hlt) as [st ->].
  destruct (currentStep (app p) <? 4); eexists; reflexivity.
Qed.

(** C10. On every reachable page where an answer can be submitted (started,
    index 0 to 4) the index is a position of the steps list: the lookup of
    [handleAnswerSubmit] succeeds and the handler returns a state, for any
    answer. *)
Theorem answer_index_in_range (p : Page) (Hp : reachable p)
  (Hst : isStarted (app p) = true) (Hcur : currentStep (app p) <= 4) :
  currentStep (app p) < length (whySteps (app p))
  /\ is_Some (whySteps (app p) !! currentStep (app p))
  /\ (forall a : jsstring, is_Some (handleAnswerSubmit a (app p))).
Proof.
  pose proof (inv_shape p (reachable_inv p Hp)) as Hshape.
  unfold step_shape in Hshape. rewrite Hst in Hshape.
  assert (Hlt : currentStep (app p) < length (whySteps (app p))) by lia.
  split; [exact Hlt |]. split; [apply lookup_lt_is_Some_2, Hlt |].
  apply answer_index_in_range_aux; [apply reachable_inv, Hp | exact Hst | exact Hcur].
Qed.

Lemma answer_index_in_range_witness :
  reachable sample_page
  /\ isStarted (app sample_page) = true
  /\ currentStep (app sample_page) <= 4
  /\ is_Some (whySteps (app sample_page) !! currentStep (app sample_page)).
Proof.
  split; [apply sample_page_reachable |].
  split; [reflexivity |]. split; [simpl; lia |].
  apply (answer_index_in_range sample_page sample_page_reachable);
    [reflexivity | simpl; lia].
Defined.

(** ** The presenter *)

(** What [handleSubmit] does with an accepted, non-blank value: the parent's
    handler receives the trimmed value and the text area is cleared. *)
Lemma handleSubmit_forward {P : Type} (onAnswerSubmit : jsstring -> P -> option P)
  (c : WhyCard.State) (parent : P) :
  safeParse inputSchema (WhyCard.inputValue c) = [] ->
  truthy (trim (WhyCard.inputValue c)) = true ->
  WhyCard.handleSubmit onAnswerSubmit c parent
  = (parent' ← onAnswerSubmit (trim (WhyCard.inputValue c)) parent;
     Some ({| WhyCard.inputValue := []; WhyCard.error := WhyCard.error c |}, parent')).
Proof.
  intros Hparse Htrim. unfold WhyCard.handleSubmit. rewrite Hparse, Htrim.
  reflexivity.
Qed.

Lemma handleSubmit_reject {P : Type} (onAnswerSubmit : jsstring -> P -> option P)
  (c : WhyCard.State) (parent : P) :
  safeParse inputSchema (WhyCard.inputValue c) <> [] ->
  WhyCard.handleSubmit onAnswerSubmit c parent
  = Some ({| WhyCard.inputValue := WhyCard.inputValue c;
             WhyCard.error :=
               Some (if 500 <? length (WhyCard.inputValue c) then msg_too_long
                     else msg_invalid) |}, parent).
Proof.
  intros Hparse. unfold WhyCard.handleSubmit.
  rewrite safeParse_inputSchema in *.
  destruct (500 <? length (WhyCard.inputValue c)),
    (regex_test re_injection (WhyCard.inputValue c));
    first [reflexivity | contradiction].
Qed.

(** C5, as the code has it. The answer schema has the 500-character cap and
    the injection pattern of the problem schema but no minimum length: an
    answer is accepted exactly when it is at most 500 characters long and
    matches no injection pattern, and the problem schema accepts exactly the
    texts of at least 3 characters that the answer schema accepts. A refused
    answer gets the message of the first failed check and is not forwarded;
    an accepted one that is not blank is forwarded trimmed. *)
Theorem answer_validation (v : jsstring) :
  (safeParse inputSchema v = []
   <-> length v <= 500 /\ regex_test re_injection v = false)
  /\ (safeParse problemSchema v = []
      <-> 3 <= length v /\ safeParse inputSchema v = [])
  /\ (forall (P : Type) (onAnswerSubmit : jsstring -> P -> option P)
        (c : WhyCard.State) (parent : P),
        WhyCard.inputValue c = v ->
        (safeParse inputSchema v <> [] ->
         WhyCard.handleSubmit onAnswerSubmit c parent
         = Some ({| WhyCard.inputValue := v;
                    WhyCard.error :=
                      Some (if 500 <? length v then msg_too_long else msg_invalid) |},
                 parent))
        /\ (safeParse inputSchema v = [] -> truthy (trim v) = true ->
            WhyCard.handleSubmit onAnswerSubmit c parent
            = (parent' ← onAnswerSubmit (trim v) parent;
               Some ({| WhyCard.inputValue := []; WhyCard.error := WhyCard.error c |},
                     parent')))).
Proof.
  split; [apply inputSchema_accepts |]. split.
  - rewrite problemSchema_accepts, inputSchema_accepts. unfold spec_valid.
    intuition lia.
  - intros P onAnswerSubmit c parent <-. split.
    + apply handleSubmit_reject.
    + apply handleSubmit_forward.
Qed.

(** C5 as stated fails: the two-character answer "ab" is not valid in the
    specification's sense and the problem schema refuses it, but the answer
    schema accepts it and the card forwards it, so that it is recorded. *)
Lemma short_answer_accepted :
  length (of_string "ab") < 3
  /\ ~ spec_valid (of_string "ab")
  /\ safeParse problemSchema (of_string "ab") = [msg_too_short]
  /\ safeParse inputSchema (of_string "ab") = []
  /\ run [ProblemChange car; StartClick; AnswerChange (of_string "ab"); AnswerEnter]
       initialPage
     = Some {| app :=
                 session car None
                   [step (why_question car) (of_string "ab");
                    step (why_question (of_string "ab")) []] 1;
               cards := [WhyCard.initial; WhyCard.initial] |}.
Proof.
  split; [simpl; lia |]. split; [intros [[H _] _]; simpl in H; lia |].
  repeat split; vm_compute; reflexivity.
Qed.

(** C7, as the code has it. The card forwards the trimmed value of an
    accepted answer, and on every reachable page no recorded answer starts or
    ends with white space. (The problem text is not trimmed: [startAnalysis]
    validates and uses the text as it was typed and sanitized.) *)
Theorem answers_trimmed (p : Page) (Hp : reachable p) :
  (forall st : WhyStep, st ∈ whySteps (app p) -> edge_free (answer st))
  /\ (forall c : WhyCard.State,
        activeCard p = Some c ->
        safeParse inputSchema (WhyCard.inputValue c) = [] ->
        truthy (trim (WhyCard.inputValue c)) = true ->
        exists s' : State,
          handleAnswerSubmit (trim (WhyCard.inputValue c)) (app p) = Some s'
          /\ dispatch AnswerEnter p
             = Some (render s'
                       (<[currentStep (app p) :=
                            {| WhyCard.inputValue := [];
                               WhyCard.error := WhyCard.error c |}]> (cards p))))
  /\ problem (startAnalysis (app p)) = problem (app p).
Proof.
  pose proof (reachable_inv p Hp) as Hinv. split; [| split].
  - apply Forall_forall, (inv_answers p Hinv).
  - intros c Hc Hparse Htrim.
    destruct (activeCard_index p c Hinv Hc) as (Hst & _ & Hcur & _).
    destruct (answer_index_in_range_aux p Hinv Hst Hcur (trim (WhyCard.inputValue c)))
      as [s' Hs'].
    exists s'. split; [exact Hs' |].
    cbn [dispatch]. unfold submit. rewrite Hc. cbn [mbind option_bind].
    rewrite (handleSubmit_forward _ _ _ Hparse Htrim), Hs'. reflexivity.
  - unfold startAnalysis.
    destruct (safeParse problemSchema (problem (app p))); reflexivity.
Qed.

Lemma answers_trimmed_witness :
  reachable sample_page
  /\ edge_free (of_string "Battery dead")
  /\ (forall st : WhyStep, st ∈ whySteps (app sample_page) -> edge_free (answer st)).
Proof.
  split; [apply sample_page_reachable |].
  destruct (answers_trimmed sample_page sample_page_reachable) as (H & _).
  split; [| exact H].
  apply (H (step (why_question car) (of_string "Battery dead"))).
  simpl. apply elem_of_cons. left. reflexivity.
Defined.

(** C7 as stated fails for the problem text: typed with blanks around it, it
    is accepted, stored and embedded in the first question with them. *)
Lemma problem_not_trimmed :
  run [ProblemChange (of_string "  Car won't start "); StartClick] initialPage
  = Some {| app :=
              session (of_string "  Car won't start ") None
                [step (of_string "Why is " ++ [dquote]
                       ++ of_string "  Car won't start " ++ [dquote]
                       ++ of_string " happening?") []] 0;
            cards := [WhyCard.initial] |}
  /\ ~ edge_free (of_string "  Car won't start ").
Proof.
  split; [vm_compute; reflexivity |].
  intros [H _]. specialize (H 32%N eq_refl). vm_compute in H. discriminate.
Qed.

(** C9, as the code has it. An answer that is empty or white space only and
    at most 500 characters long passes the schema, and submitting it changes
    nothing: the parent's handler is not called, whatever it is, and the
    card keeps its value. On a reachable page the Enter key leaves the page
    as it is, with no message on the card, and the button is disabled. *)
Theorem blank_answer_ignored (c : WhyCard.State)
  (Hblank : blank (WhyCard.inputValue c))
  (Hlen : length (WhyCard.inputValue c) <= 500) :
  safeParse inputSchema (WhyCard.inputValue c) = []
  /\ (forall (P : Type) (onAnswerSubmit : jsstring -> P -> option P) (parent : P),
        WhyCard.handleSubmit onAnswerSubmit c parent = Some (c, parent))
  /\ (forall p : Page,
        reachable p -> activeCard p = Some c ->
        dispatch AnswerEnter p = Some p
        /\ dispatch AnswerClick p = None
        /\ WhyCard.error c = None).
Proof.
  assert (Hparse : safeParse inputSchema (WhyCard.inputValue c) = []).
  { apply inputSchema_accepts. split; [exact Hlen |].
    apply regex_test_injection_blank, Hblank. }
  assert (Htrim : truthy (trim (WhyCard.inputValue c)) = false)
    by apply trim_truthy_false, Hblank.
  assert (Hsub : forall (P : Type) (onAnswerSubmit : jsstring -> P -> option P)
                   (parent : P),
             WhyCard.handleSubmit onAnswerSubmit c parent = Some (c, parent)).
  { intros P f parent. unfold WhyCard.handleSubmit. rewrite Hparse, Htrim.
    reflexivity. }
  split; [exact Hparse |]. split; [exact Hsub |].
  intros p Hp Hc. pose proof (reachable_inv p Hp) as Hinv.
  destruct (activeCard_index p c Hinv Hc) as (Hst & Hlook & _).
  split; [| split].
  - cbn [dispatch]. unfold submit. rewrite Hc. cbn [mbind option_bind].
    rewrite Hsub. cbn [mbind option_bind fst snd]. f_equal.
    rewrite (list_insert_id _ _ _ Hlook). unfold render.
    rewrite (mount_same _ _ (inv_cards p Hinv)). destruct p; reflexivity.
  - cbn [dispatch]. rewrite Hc. cbn [mbind option_bind]. rewrite Htrim.
    reflexivity.
  - pose proof (inv_card_ok p Hinv) as Hok.
    eapply Forall_lookup_1 in Hok; [| exact Hlook].
    destruct Hok as [E | E]; [exact E | contradiction].
Qed.

Lemma blank_answer_ignored_witness :
  blank (of_string "  ")
  /\ WhyCard.handleSubmit handleAnswerSubmit
       {| WhyCard.inputValue := of_string "  "; WhyCard.error := None |}
       (app sample_page)
     = Some ({| WhyCard.inputValue := of_string "  "; WhyCard.error := None |},
             app sample_page).
Proof.
  assert (H : blank (of_string "  ")) by (repeat constructor).
  split; [exact H |].
  apply (blank_answer_ignored
           {| WhyCard.inputValue := of_string "  "; WhyCard.error := None |} H).
  simpl. lia.
Defined.

(** C9 as stated fails for long white space: 501 blanks do not pass the
    schema, and the card shows the message of the length check. *)
Lemma long_blank_answer_rejected :
  blank (replicate 501 32%N)
  /\ safeParse inputSchema (replicate 501 32%N) = [msg_too_long]
  /\ run [ProblemChange car; StartClick; AnswerChange (replicate 501 32%N);
          AnswerEnter] initialPage
     = Some {| app := session car None [step (why_question car) []] 0;
               cards :=
                 [{| WhyCard.inputValue := replicate 501 32%N;
                     WhyCard.error :=
                       Some (of_string "Text too long (max 500 characters)") |}] |}.
Proof.
  split; [apply Forall_replicate; reflexivity |].
  split; vm_compute; reflexivity.
Qed.

(** ** The sanitizer *)

(** C6, as the code has it. The sanitizer only deletes characters, and its
    result holds no complete tag: the tag pattern does not match in it, that
    is, no [<] of the result has a [>] anywhere after it. *)
Theorem sanitizeInput_no_tag (value : jsstring) :
  regex_test re_tag (sanitizeInput value) = false
  /\ (forall i j : nat,
        i < j -> sanitizeInput value !! i = Some lt_sign ->
        sanitizeInput value !! j <> Some gt_sign)
  /\ sanitizeInput value `sublist_of` value.
Proof.
  split; [apply regex_test_tag_false, sanitizeInput_tag_free |].
  split; [apply tag_free_lookup, sanitizeInput_tag_free |].
  apply sanitizeInput_sublist.
Qed.

(** C6 as stated fails: an unclosed [<script] is no tag and stays, and the
    single pass of each replacement can leave a fragment that the deleted
    match held apart. *)
Lemma sanitizeInput_keeps_fragments :
  sanitizeInput (of_string "<script") = of_string "<script"
  /\ regex_test (rlit_i (of_string "<script")) (sanitizeInput (of_string "<script"))
     = true
  /\ sanitizeInput (of_string "javajavascript:script:") = of_string "javascript:"
  /\ regex_test re_javascript (sanitizeInput (of_string "javajavascript:script:"))
     = true
  /\ sanitizeInput (of_string "oonclick=nclick=") = of_string "onclick="
  /\ regex_test re_handler (sanitizeInput (of_string "oonclick=nclick=")) = true.
Proof. repeat split; vm_compute; reflexivity. Qed.

(** * Further properties *)

(** ** Matches that consume, and what a replacement leaves alone *)

Lemma rmatch_consuming (r : regex) :
  consuming r = true ->
  forall (s : jsstring) (k : jsstring -> option jsstring) (t : jsstring),
    rmatch r s k = Some t ->
    exists s', s' `suffix_of` s /\ length s' < length s /\ k s' = Some t.
Proof.
  induction r as [| p | r1 IH1 r2 IH2 | r1 IH1 r2 IH2 | r1 IH1];
    simpl; intros Hc s k t H; try discriminate.
  - destruct s as [| c s']; [discriminate |].
    destruct (p c); [| discriminate].
    exists s'. split; [apply suffix_cons_r; reflexivity |]. split; [simpl; lia | exact H].
  - destruct (consuming r1) eqn:E1.
    + apply (IH1 eq_refl) in H as (s1 & Hs1 & Hl1 & H).
      apply rmatch_suffix in H as (s2 & Hs2 & H).
      exists s2. split; [etrans; eassumption |]. split; [| exact H].
      apply suffix_length in Hs2. lia.
    + simpl in Hc. apply rmatch_suffix in H as (s1 & Hs1 & H).
      apply (IH2 Hc) in H as (s2 & Hs2 & Hl2 & H).
      exists s2. split; [etrans; eassumption |]. split; [| exact H].
      apply suffix_length in Hs1. lia.
  - apply andb_true_iff in Hc as [Hc1 Hc2].
    apply or_else_Some in H as [H | [_ H]]; [apply (IH1 Hc1), H | apply (IH2 Hc2), H].
Qed.

Lemma rexec_consuming (r : regex) (s rest : jsstring) :
  consuming r = true -> rexec r s = Some rest -> length rest < length s.
Proof.
  intros Hc H. apply (rmatch_consuming r Hc) in H as (s' & _ & Hl & H).
  injection H as ->. exact Hl.
Qed.

Lemma regex_test_cons_false (r : regex) (c : N) (s : jsstring) :
  regex_test r (c :: s) = false <-> rexec r (c :: s) = None /\ regex_test r s = false.
Proof.
  cbn [regex_test]. destruct (rexec r (c :: s)); split;
    first [discriminate | intros [? ?]; discriminate | tauto].
Qed.

Lemma replace_fuel_no_match (r : regex) (fuel : nat) :
  forall s : jsstring, regex_test r s = false -> replace_fuel fuel r s = s.
Proof.
  induction fuel as [| fuel IH]; intros s H; [reflexivity |].
  destruct s as [| c s']; [reflexivity |].
  apply regex_test_cons_false in H as [Hx Ht].
  cbn [replace_fuel]. rewrite Hx, (IH s' Ht). reflexivity.
Qed.

Lemma regex_test_nil_consuming (r : regex) :
  consuming r = true -> regex_test r [] = false.
Proof.
  intros Hc. cbn [regex_test]. destruct (rexec r []) as [rest |] eqn:E; [| reflexivity].
  apply (rexec_consuming r _ _ Hc) in E. simpl in E. lia.
Qed.

Lemma replace_fuel_shorter (r : regex) (fuel : nat) :
  consuming r = true ->
  forall s : jsstring,
    length s <= fuel -> regex_test r s = true ->
    length (replace_fuel fuel r s) < length s.
Proof.
  intros Hc. induction fuel as [| fuel IH]; intros s Hlen Ht.
  - destruct s; [| simpl in Hlen; lia].
    rewrite (regex_test_nil_consuming r Hc) in Ht. discriminate.
  - destruct s as [| c s'];
      [rewrite (regex_test_nil_consuming r Hc) in Ht; discriminate |].
    cbn [replace_fuel]. cbn [regex_test] in Ht. simpl in Hlen.
    destruct (rexec r (c :: s')) as [rest |] eqn:E.
    + pose proof (rexec_consuming r _ _ Hc E) as Hl.
      destruct (Nat.ltb_spec (length rest) (length (c :: s'))); [| lia].
      pose proof (sublist_length _ _ (replace_fuel_sublist r fuel rest)). lia.
    + specialize (IH s' ltac:(lia) Ht). simpl. lia.
Qed.

(** A global replacement by the empty string returns its input exactly when
    the pattern matches nowhere in it. *)
Lemma replace_all_id (r : regex) (s : jsstring) :
  consuming r = true -> (replace_all r s = s <-> regex_test r s = false).
Proof.
  intros Hc. split.
  - intros H. destruct (regex_test r s) eqn:E; [| reflexivity].
    pose proof (replace_fuel_shorter r (length s) Hc s (le_n _) E) as Hl.
    unfold replace_all in H. rewrite H in Hl. lia.
  - apply replace_fuel_no_match.
Qed.

(** X1. The sanitizer returns its input unchanged exactly when none of its
    three patterns matches anywhere in the input; otherwise the result is
    strictly shorter. *)
Theorem sanitizeInput_unchanged_iff (value : jsstring) :
  (sanitizeInput value = value
   <-> regex_test re_tag value = false
       /\ regex_test re_javascript value = false
       /\ regex_test re_handler value = false)
  /\ (sanitizeInput value <> value -> length (sanitizeInput value) < length value).
Proof.
  assert (Hlen : forall r s, length (replace_all r s) <= length s)
    by (intros r s; apply sublist_length, replace_all_sublist).
  assert (Hstrict : forall r s, consuming r = true -> replace_all r s <> s ->
                                length (replace_all r s) < length s).
  { intros r s Hc Hne. apply replace_fuel_shorter; [exact Hc | reflexivity |].
    destruct (regex_test r s) eqn:E; [reflexivity |].
    apply (replace_all_id r s Hc) in E. contradiction. }
  assert (Hdec : forall a b : jsstring, a = b \/ a <> b)
    by (intros a b; destruct (decide (a = b)); tauto).
  unfold sanitizeInput.
  set (v1 := replace_all re_tag value).
  set (v2 := replace_all re_javascript v1).
  pose proof (Hlen re_tag value) as L1. fold v1 in L1.
  pose proof (Hlen re_javascript v1) as L2. fold v2 in L2.
  pose proof (Hlen re_handler v2) as L3.
  assert (Hsame : replace_all re_handler v2 = value -> v1 = value /\ v2 = value).
  { intros H. rewrite H in L3.
    destruct (Hdec v1 value) as [E1 | E1].
    - split; [exact E1 |]. destruct (Hdec v2 v1) as [E2 | E2]; [congruence |].
      apply (Hstrict re_javascript v1 eq_refl) in E2. fold v2 in E2.
      rewrite E1 in E2. lia.
    - apply (Hstrict re_tag value eq_refl) in E1. fold v1 in E1. lia. }
  split; [split |].
  - intros H. destruct (Hsame H) as [E1 E2].
    rewrite E2 in H. unfold v2 in E2. rewrite E1 in E2. unfold v1 in E1.
    apply (replace_all_id re_tag _ eq_refl) in E1.
    apply (replace_all_id re_javascript _ eq_refl) in E2.
    apply (replace_all_id re_handler _ eq_refl) in H. tauto.
  - intros (H1 & H2 & H3).
    apply (replace_all_id re_tag _ eq_refl) in H1.
    apply (replace_all_id re_javascript _ eq_refl) in H2.
    apply (replace_all_id re_handler _ eq_refl) in H3.
    unfold v2, v1. rewrite H1, H2, H3. reflexivity.
  - intros Hne.
    destruct (Hdec v1 value) as [E1 | E1];
      [| apply (Hstrict re_tag value eq_refl) in E1; fold v1 in E1; lia].
    destruct (Hdec v2 v1) as [E2 | E2];
      [| apply (Hstrict re_javascript v1 eq_refl) in E2; fold v2 in E2; lia].
    destruct (Hdec (replace_all re_handler v2) v2) as [E3 | E3];
      [congruence |].
    apply (Hstrict re_handler v2 eq_refl) in E3. lia.
Qed.

(** ** What the injection pattern matches *)

Lemma canonicalize_eq_sign (c : N) :
  canonicalize c = canonicalize eq_sign <-> c = eq_sign.
Proof.
  unfold canonicalize, eq_sign. simpl.
  destruct ((97 <=? c)%N && (c <=? 122)%N) eqn:E; [| tauto].
  bool_to_prop. split; intros; lia.
Qed.

Lemma same_letters_nil (m : jsstring) : same_letters m [] <-> m = [].
Proof.
  unfold same_letters. split; [apply fmap_nil_inv | intros ->; reflexivity].
Qed.

Lemma same_letters_cons (c x : N) (m lit : jsstring) :
  same_letters (c :: m) (x :: lit)
  <-> canonicalize c = canonicalize x /\ same_letters m lit.
Proof.
  unfold same_letters. rewrite !fmap_cons. split.
  - intros [= H1 H2]. tauto.
  - intros [-> ->]. reflexivity.
Qed.

(** A literal of a pattern with the [i] flag matches the texts that are the
    literal up to case. *)
Lemma rmatch_lit_i (lit : jsstring) :
  forall (s : jsstring) (k : jsstring -> option jsstring) (t : jsstring),
    rmatch (rlit_i lit) s k = Some t
    <-> exists m rest, s = m ++ rest /\ same_letters m lit /\ k rest = Some t.
Proof.
  induction lit as [| x lit IH]; intros s k t.
  - simpl. split.
    + intros H. exists [], s. split; [reflexivity |]. split; [reflexivity | exact H].
    + intros (m & rest & -> & Hm & H). apply same_letters_nil in Hm as ->. exact H.
  - destruct s as [| c s].
    + split; [discriminate |]. intros (m & rest & Hs & Hm & _).
      symmetry in Hs. apply app_eq_nil in Hs as [-> _].
      unfold same_letters in Hm. discriminate.
    + rewrite rmatch_lit_i_cons.
      destruct (canonicalize c =? canonicalize x)%N eqn:E.
      * apply N.eqb_eq in E. rewrite IH. split.
        -- intros (m & rest & -> & Hm & H). exists (c :: m), rest.
           split; [reflexivity |]. split; [apply same_letters_cons; tauto | exact H].
        -- intros (m & rest & Hs & Hm & H).
           destruct m as [| c' m]; [unfold same_letters in Hm; discriminate |].
           injection Hs as <- ->. apply same_letters_cons in Hm as [_ Hm].
           exists m, rest. tauto.
      * apply N.eqb_neq in E. split; [discriminate |].
        intros (m & rest & Hs & Hm & _).
        destruct m as [| c' m]; [unfold same_letters in Hm; discriminate |].
        injection Hs as <- ->. apply same_letters_cons in Hm as [Hm _].
        contradiction.
Qed.

Lemma rmatch_eq_sign (s : jsstring) (k : jsstring -> option jsstring) (t : jsstring) :
  rmatch (rchar_i eq_sign) s k = Some t
  <-> exists rest, s = eq_sign :: rest /\ k rest = Some t.
Proof.
  destruct s as [| c s]; simpl.
  - split; [discriminate | intros (rest & H & _); discriminate].
  - destruct (canonicalize c =? canonicalize eq_sign)%N eqn:E.
    + apply N.eqb_eq, canonicalize_eq_sign in E as ->. split.
      * intros H. exists s. tauto.
      * intros (rest & [= <-] & H). exact H.
    + apply N.eqb_neq in E. split; [discriminate |].
      intros (rest & [= -> _] & _). exfalso. apply E. reflexivity.
Qed.

(** [\w*=]: word characters up to an [=]. *)
Lemma rmatch_words_eq (s : jsstring) (k : jsstring -> option jsstring) (t : jsstring) :
  rmatch (RStar (RChar is_word)) s (fun s' => rmatch (rchar_i eq_sign) s' k) = Some t
  <-> exists w rest,
        s = w ++ eq_sign :: rest /\ Forall (fun c => is_word c = true) w
        /\ k rest = Some t.
Proof.
  induction s as [| c s IH].
  - rewrite rmatch_star_char_nil. split; [discriminate |].
    intros (w & rest & Hs & _). destruct w; discriminate.
  - rewrite rmatch_star_char_cons. split.
    + intros H. apply or_else_Some in H as [H | [_ H]].
      * destruct (is_word c) eqn:Ec; [| discriminate].
        apply IH in H as (w & rest & -> & Hw & H).
        exists (c :: w), rest.
        split; [reflexivity |]. split; [constructor; assumption | exact H].
      * apply rmatch_eq_sign in H as (rest & [= -> ->] & H).
        exists [], rest. split; [reflexivity |]. split; [constructor | exact H].
    + intros (w & rest & Hs & Hw & H). destruct w as [| c' w].
      * injection Hs as -> ->.
        replace (is_word eq_sign) with false by reflexivity. cbn [or_else].
        apply rmatch_eq_sign. exists rest. tauto.
      * injection Hs as <- ->. apply Forall_cons in Hw as [Hc Hw].
        rewrite Hc.
        assert (E : rmatch (RStar (RChar is_word)) (w ++ eq_sign :: rest)
                      (fun s' => rmatch (rchar_i eq_sign) s' k) = Some t)
          by (apply IH; exists w, rest; tauto).
        rewrite E. reflexivity.
Qed.

(** [on\w+=] *)
Lemma rmatch_handler (s : jsstring) (k : jsstring -> option jsstring) (t : jsstring) :
  rmatch re_handler s k = Some t
  <-> exists o w rest,
        s = o ++ w ++ eq_sign :: rest /\ same_letters o (of_string "on")
        /\ w <> [] /\ Forall (fun c => is_word c = true) w /\ k rest = Some t.
Proof.
  unfold re_handler, rplus. cbn [rmatch]. rewrite rmatch_lit_i. split.
  - intros (o & s1 & -> & Ho & H).
    destruct s1 as [| c s1]; [discriminate |].
    destruct (is_word c) eqn:Ec; [| discriminate].
    apply rmatch_words_eq in H as (w & rest & -> & Hw & H).
    exists o, (c :: w), rest.
    split; [reflexivity |]. split; [exact Ho |]. split; [discriminate |].
    split; [constructor; assumption | exact H].
  - intros (o & w & rest & -> & Ho & Hne & Hw & H).
    destruct w as [| c w]; [contradiction |].
    apply Forall_cons in Hw as [Hc Hw].
    exists o, (c :: w ++ eq_sign :: rest).
    split; [reflexivity |]. split; [exact Ho |]. cbn [rmatch].
    rewrite Hc. apply rmatch_words_eq. exists w, rest. tauto.
Qed.

Lemma rexec_injection_fragment (s rest : jsstring) :
  rexec re_injection s = Some rest ->
  exists m : jsstring, s = m ++ rest /\ is_fragment m.
Proof.
  unfold rexec, re_injection. cbn [rmatch]. intros H.
  apply or_else_Some in H as [H | [_ H]]; [| apply or_else_Some in H as [H | [_ H]]].
  - apply rmatch_lit_i in H as (m & r' & -> & Hm & [= ->]).
    exists m. split; [reflexivity | left; exact Hm].
  - apply rmatch_lit_i in H as (m & r' & -> & Hm & [= ->]).
    exists m. split; [reflexivity | right; left; exact Hm].
  - apply (rmatch_handler s Some rest) in H
      as (o & w & r' & -> & Ho & Hne & Hw & [= ->]).
    exists (o ++ w ++ [eq_sign]). split.
    + rewrite <- !app_assoc. reflexivity.
    + right. right. exists o, w. tauto.
Qed.

Lemma fragment_rexec_injection (m rest : jsstring) :
  is_fragment m -> is_Some (rexec re_injection (m ++ rest)).
Proof.
  assert (Hor : forall a b : option jsstring,
             is_Some a \/ is_Some b -> is_Some (or_else a b)).
  { intros [x |] b [[y H] | [y H]]; simpl; eauto; discriminate. }
  unfold rexec, re_injection. cbn [rmatch].
  intros [Hm | [Hm | (o & w & -> & Ho & Hne & Hw)]]; apply Hor.
  - left. exists rest. apply rmatch_lit_i. exists m, rest. tauto.
  - right. apply Hor. left. exists rest. apply rmatch_lit_i. exists m, rest. tauto.
  - right. apply Hor. right. exists rest.
    apply (rmatch_handler _ Some rest). exists o, w, rest.
    rewrite <- !app_assoc. tauto.
Qed.

Lemma regex_test_true_split (r : regex) (s : jsstring) :
  regex_test r s = true ->
  exists pre tail rest, s = pre ++ tail /\ rexec r tail = Some rest.
Proof.
  induction s as [| c s IH]; cbn [regex_test].
  - destruct (rexec r []) as [rest |] eqn:E; [| discriminate].
    intros _. exists [], [], rest. tauto.
  - destruct (rexec r (c :: s)) as [rest |] eqn:E.
    + intros _. exists [], (c :: s), rest. tauto.
    + intros H. apply IH in H as (pre & tail & rest & -> & H).
      exists (c :: pre), tail, rest. tauto.
Qed.

Lemma regex_test_rexec (r : regex) (s rest : jsstring) :
  rexec r s = Some rest -> regex_test r s = true.
Proof. intros E. destruct s; cbn [regex_test]; rewrite E; reflexivity. Qed.

Lemma regex_test_app_l (r : regex) (pre s : jsstring) :
  regex_test r s = true -> regex_test r (pre ++ s) = true.
Proof.
  intros H. induction pre as [| c pre IH]; [exact H |].
  simpl. rewrite IH. destruct (rexec r (c :: pre ++ s)); reflexivity.
Qed.

Lemma injection_test_fragment (s : jsstring) :
  regex_test re_injection s = true -> contains_fragment s.
Proof.
  intros H. apply regex_test_true_split in H as (pre & tail & rest & -> & H).
  apply rexec_injection_fragment in H as (m & -> & Hm).
  exists pre, m, rest. tauto.
Qed.

Lemma fragment_injection_test (s : jsstring) :
  contains_fragment s -> regex_test re_injection s = true.
Proof.
  intros (pre & m & post & -> & Hm). apply regex_test_app_l.
  destruct (fragment_rexec_injection m post Hm) as [rest E].
  apply regex_test_rexec with rest, E.
Qed.

(** X2. The injection pattern matches in a text exactly when the text
    contains, in any letter case, [<script], [javascript:], or [on] followed
    by one or more word characters and [=]. So the problem schema accepts
    exactly the texts of 3 to 500 characters without such a fragment, and the
    answer schema exactly those of at most 500 characters without one. *)
Theorem injection_matches_fragments (s : jsstring) :
  (regex_test re_injection s = true <-> contains_fragment s)
  /\ (safeParse problemSchema s = []
      <-> 3 <= length s <= 500 /\ ~ contains_fragment s)
  /\ (safeParse inputSchema s = []
      <-> length s <= 500 /\ ~ contains_fragment s).
Proof.
  assert (H : regex_test re_injection s = true <-> contains_fragment s)
    by (split; [apply injection_test_fragment | apply fragment_injection_test]).
  split; [exact H |].
  rewrite problemSchema_accepts, inputSchema_accepts. unfold spec_valid.
  rewrite <- H. destruct (regex_test re_injection s); intuition congruence.
Qed.

(** ** Trimming keeps what validation established *)

Lemma trimStart_split (s : jsstring) :
  exists pre, s = pre ++ trimStart s /\ blank pre.
Proof.
  induction s as [| c s (pre & IH & Hpre)]; simpl.
  - exists []. split; [reflexivity | constructor].
  - destruct (is_space c) eqn:E.
    + exists (c :: pre). split; [simpl; f_equal; exact IH | constructor; assumption].
    + exists []. split; [reflexivity | constructor].
Qed.

(** [trim] removes white space at the two ends and nothing else. *)
Lemma trim_infix (s : jsstring) :
  exists pre post, s = pre ++ trim s ++ post /\ blank pre /\ blank post.
Proof.
  destruct (trimStart_split s) as (pre & Hs & Hpre).
  destruct (trimStart_split (reverse (trimStart s))) as (k & Hk & Hblank).
  exists pre, (reverse k). split; [| split; [exact Hpre | apply blank_reverse, Hblank]].
  unfold trim, trimEnd. rewrite <- reverse_app, <- Hk, reverse_involutive.
  exact Hs.
Qed.

Lemma trim_length (s : jsstring) : length (trim s) <= length s.
Proof.
  destruct (trim_infix s) as (pre & post & H & _).
  rewrite H at 2. rewrite !length_app. lia.
Qed.

Lemma trim_sublist (s : jsstring) : trim s `sublist_of` s.
Proof.
  destruct (trim_infix s) as (pre & post & H & _). rewrite H at 2.
  apply sublist_inserts_l, sublist_inserts_r. reflexivity.
Qed.

Lemma contains_fragment_trim (s : jsstring) :
  contains_fragment (trim s) -> contains_fragment s.
Proof.
  destruct (trim_infix s) as (pre & post & H & _).
  intros (p & m & q & Ht & Hm). exists (pre ++ p), m, (q ++ post).
  split; [| exact Hm]. rewrite H at 1. rewrite Ht, <- !app_assoc. reflexivity.
Qed.

Lemma inputSchema_trim (v : jsstring) :
  safeParse inputSchema v = [] -> safeParse inputSchema (trim v) = [].
Proof.
  rewrite !inputSchema_accepts. intros [Hlen Hinj]. split.
  - pose proof (trim_length v). lia.
  - destruct (regex_test re_injection (trim v)) eqn:E; [| reflexivity].
    apply injection_test_fragment, contains_fragment_trim,
      fragment_injection_test in E.
    congruence.
Qed.

Lemma truthy_ne (s : jsstring) : truthy s = true <-> s <> [].
Proof. destruct s; simpl; split; congruence. Qed.

(** What a card forwards is a recorded answer in the sense above. *)
Lemma forwarded_recorded (v : jsstring) :
  tag_free v -> safeParse inputSchema v = [] -> truthy (trim v) = true ->
  recorded (trim v).
Proof.
  intros Htag Hparse Htrim. split; [apply truthy_ne, Htrim |].
  split; [apply inputSchema_trim, Hparse |].
  apply tag_free_sublist with v; [apply trim_sublist | exact Htag].
Qed.

(** ** The controller on a list of steps that ends with the open one *)

Lemma steps_snoc (steps : list WhyStep) (cur : nat) :
  length steps = cur + 1 ->
  exists init st, steps = init ++ [st] /\ length init = cur.
Proof.
  intros Hlen. destruct steps as [| x l] using rev_ind; [simpl in Hlen; lia |].
  exists l, x. split; [reflexivity |]. rewrite length_app in Hlen. simpl in Hlen. lia.
Qed.

Lemma handleAnswerSubmit_snoc (a : jsstring) (s : State) (init : list WhyStep)
  (st : WhyStep) :
  whySteps s = init ++ [st] -> currentStep s = length init ->
  handleAnswerSubmit a s
  = Some {| problem := problem s; isStarted := isStarted s;
            whySteps :=
              init ++ set_answer a st
                   :: (if length init <? 4
                       then [{| question := why_question a; answer := [] |}]
                       else []);
            currentStep := if length init <? 4 then length init + 1 else 5;
            error := error s |}.
Proof.
  intros Hsteps Hcur. unfold handleAnswerSubmit. rewrite Hsteps, Hcur.
  rewrite lookup_app_r, Nat.sub_diag by reflexivity. cbn [lookup list_lookup].
  rewrite insert_app_r_alt, Nat.sub_diag by reflexivity. cbn [insert list_insert].
  destruct (length init <? 4).
  - rewrite <- app_assoc. reflexivity.
  - reflexivity.
Qed.

Lemma chained_snoc_update (a : jsstring) (tail : list WhyStep) (st : WhyStep)
  (init : list WhyStep) :
  forall seed : jsstring,
    chained seed (init ++ [st]) -> chained a tail ->
    chained seed (init ++ set_answer a st :: tail).
Proof.
  induction init as [| x init IH]; intros seed; simpl.
  - intros [Hq _] Htail. split; assumption.
  - intros [Hq Hrest] Htail. split; [exact Hq | apply IH; assumption].
Qed.

(** ** What the stored texts satisfy on every reachable page *)

Lemma message_of_None (schema : list ZodCheck) (v : jsstring) :
  message_of schema v None.
Proof. intros m H. discriminate. Qed.

Lemma message_of_accepts (schema : list ZodCheck) (v : jsstring)
  (e : option jsstring) :
  message_of schema v e -> safeParse schema v = [] -> e = None.
Proof.
  intros H Hparse. destruct e as [m |]; [| reflexivity].
  destruct (H m eq_refl) as [Hne _]. contradiction.
Qed.

Lemma state_ok_initial : state_ok initial.
Proof.
  split; simpl; try constructor; try discriminate; try reflexivity.
Qed.

Lemma handleProblemChange_ok (value : jsstring) (s : State) :
  whySteps s = [] -> isStarted s = false -> state_ok (handleProblemChange value s).
Proof.
  intros Hsteps Hst. split; simpl; rewrite ?Hsteps, ?Hst.
  - exact I.
  - rewrite take_nil. constructor.
  - rewrite drop_nil. constructor.
  - apply sanitizeInput_tag_free.
  - discriminate.
  - apply message_of_None.
  - reflexivity.
Qed.

Lemma startAnalysis_ok (s : State) :
  state_ok s -> isStarted s = false -> whySteps s = [] -> currentStep s = 0 ->
  state_ok (startAnalysis s).
Proof.
  intros Hok Hst Hsteps Hcur. unfold startAnalysis.
  destruct (safeParse problemSchema (problem s)) as [| m ms] eqn:Eparse.
  - pose proof (message_of_accepts _ _ _ (ok_error s Hok) Eparse) as Herr.
    split; simpl.
    + split; [reflexivity | exact I].
    + constructor.
    + repeat constructor.
    + apply (ok_problem_tags s Hok).
    + intros _. exact Eparse.
    + rewrite Herr. apply message_of_None.
    + intros _. exact Herr.
  - split; simpl; rewrite ?Hsteps, ?Hcur, ?Hst.
    + exact I.
    + constructor.
    + constructor.
    + apply (ok_problem_tags s Hok).
    + discriminate.
    + intros m' [= <-]. rewrite Eparse. split; [discriminate | reflexivity].
    + discriminate.
Qed.

Lemma handleAnswerSubmit_ok (a : jsstring) (s s' : State) :
  state_ok s -> step_shape s -> isStarted s = true -> recorded a ->
  handleAnswerSubmit a s = Some s' -> state_ok s'.
Proof.
  intros Hok Hshape Hst Ha Hs. unfold step_shape in Hshape. rewrite Hst in Hshape.
  destruct Hshape as [[Hcur Hlen] | [Hcur Hlen]].
  2: { unfold handleAnswerSubmit in Hs.
       rewrite (lookup_ge_None_2 (whySteps s) (currentStep s)) in Hs by lia.
       discriminate. }
  destruct (steps_snoc _ _ Hlen) as (init & st & Hsteps & Hinit).
  rewrite (handleAnswerSubmit_snoc a s init st Hsteps (eq_sym Hinit)) in Hs.
  injection Hs as <-.
  destruct Hok as [Hchain Hans Hpend Htags Hprob Herr Hidle].
  rewrite Hsteps in Hchain, Hans, Hpend. rewrite <- Hinit in Hans, Hpend.
  rewrite take_app_length in Hans. rewrite drop_app_length in Hpend.
  split; simpl; try assumption.
  - apply chained_snoc_update; [exact Hchain |].
    destruct (length init <? 4); simpl; [split; [reflexivity | exact I] | exact I].
  - rewrite cons_middle, app_assoc.
    destruct (length init <? 4).
    + rewrite take_app_length' by (rewrite length_app; simpl; lia).
      apply Forall_app. split; [exact Hans | constructor; [exact Ha | constructor]].
    + rewrite app_nil_r, take_ge by (rewrite length_app; simpl; lia).
      apply Forall_app. split; [exact Hans | constructor; [exact Ha | constructor]].
  - rewrite cons_middle, app_assoc.
    destruct (length init <? 4).
    + rewrite drop_app_length' by (rewrite length_app; simpl; lia).
      repeat constructor.
    + rewrite app_nil_r, drop_ge by (rewrite length_app; simpl; lia).
      constructor.
Qed.

Lemma card_wf_initial : card_wf WhyCard.initial.
Proof. split; [exact I | apply message_of_None]. Qed.

Lemma all_initial_wf (cs : list WhyCard.State) :
  Forall (fun c => c = WhyCard.initial) cs -> Forall card_wf cs.
Proof.
  intros H. eapply Forall_impl; [exact H |]. intros c ->. apply card_wf_initial.
Qed.

Lemma mount_all_initial (s : State) (cs : list WhyCard.State) :
  Forall (fun c => c = WhyCard.initial) cs ->
  Forall (fun c => c = WhyCard.initial) (mount s cs).
Proof.
  intros H. unfold mount. destruct (isStarted s); [| constructor].
  apply Forall_app. split; [apply Forall_take, H |].
  apply Forall_replicate. reflexivity.
Qed.

(** A page all of whose cards are in their initial state. *)
Lemma render_ok_initial (s : State) (cs : list WhyCard.State) :
  state_ok s -> Forall (fun c => c = WhyCard.initial) cs -> page_ok (render s cs).
Proof.
  intros Hs Hcs. apply (mount_all_initial s) in Hcs.
  split; simpl; [exact Hs | apply all_initial_wf, Hcs |].
  intros i c Hc _. eapply Forall_lookup_1 in Hcs; [| exact Hc]. exact Hcs.
Qed.

(** A page whose state and number of cards stay, one card being replaced. *)
Lemma render_ok_insert (p : Page) (s : State) (c : WhyCard.State) :
  page_inv p -> page_ok p -> state_ok s ->
  isStarted s = isStarted (app p) -> whySteps s = whySteps (app p) ->
  currentStep s = currentStep (app p) -> card_wf c ->
  page_ok (render s (<[currentStep (app p) := c]> (cards p))).
Proof.
  intros Hinv Hok Hs Hst Hsteps Hcur Hc. unfold render.
  rewrite mount_same
    by (rewrite length_insert, Hst, Hsteps; apply (inv_cards p Hinv)).
  split; simpl; [exact Hs | apply Forall_insert; [apply (ok_cards p Hok) | exact Hc] |].
  intros i c' Hi Hne. rewrite Hcur in Hne.
  rewrite list_lookup_insert_ne in Hi by congruence.
  apply (ok_inactive p Hok i c' Hi Hne).
Qed.

Lemma page_ok_initial : page_ok initialPage.
Proof. apply render_ok_initial; [apply state_ok_initial | constructor]. Qed.

Lemma submit_ok (p p' : Page) :
  page_inv p -> page_ok p -> submit p = Some p' -> page_ok p'.
Proof.
  intros Hinv Hok Hsub. unfold submit in Hsub.
  destruct (activeCard p) as [c |] eqn:Ec; [| discriminate]. simpl in Hsub.
  destruct (activeCard_index p c Hinv Ec) as (Hst & Hc & Hcur & Hlen).
  assert (Hwf : card_wf c).
  { pose proof (ok_cards p Hok) as H. eapply Forall_lookup_1 in H; eassumption. }
  destruct Hwf as [Htag Hmsg].
  unfold WhyCard.handleSubmit in Hsub.
  destruct (safeParse inputSchema (WhyCard.inputValue c)) as [| m ms] eqn:Eparse.
  - destruct (truthy (trim (WhyCard.inputValue c))) eqn:Etrim.
    + destruct (handleAnswerSubmit (trim (WhyCard.inputValue c)) (app p))
        as [s' |] eqn:Es; [| discriminate].
      simpl in Hsub. injection Hsub as <-.
      rewrite (message_of_accepts _ _ _ Hmsg Eparse).
      apply render_ok_initial.
      * apply (handleAnswerSubmit_ok _ _ _ (ok_state p Hok) (inv_shape p Hinv) Hst
                 (forwarded_recorded _ Htag Eparse Etrim) Es).
      * apply Forall_lookup_2. intros i c' Hi.
        apply list_lookup_insert_Some in Hi as [(_ & <- & _) | [Hne Hi]];
          [reflexivity |].
        apply (ok_inactive p Hok i c' Hi). congruence.
    + simpl in Hsub. injection Hsub as <-.
      apply render_ok_insert; try assumption; try reflexivity;
        [apply (ok_state p Hok) | split; assumption].
  - simpl in Hsub. injection Hsub as <-.
    apply render_ok_insert; try assumption; try reflexivity;
      [apply (ok_state p Hok) |].
    split; [exact Htag |]. intros m' [= <-].
    change (safeParse inputSchema (WhyCard.inputValue c) <> []
            /\ first_message (m :: ms)
               = first_message (safeParse inputSchema (WhyCard.inputValue c))).
    rewrite Eparse. split; [discriminate | reflexivity].
Qed.

Lemma dispatch_ok (e : Event) (p p' : Page) :
  page_inv p -> page_ok p -> dispatch e p = Some p' -> page_ok p'.
Proof.
  intros Hinv Hok Hd. pose proof (inv_shape p Hinv) as Hshape.
  pose proof (inv_cards p Hinv) as Hcards. unfold step_shape in Hshape.
  destruct e; simpl in Hd.
  - destruct (isStarted (app p)) eqn:Hst; [discriminate |]. injection Hd as <-.
    apply length_zero_iff_nil in Hcards. rewrite Hcards.
    apply render_ok_initial; [| constructor].
    apply handleProblemChange_ok; tauto.
  - destruct (isStarted (app p)) eqn:Hst; [discriminate |].
    destruct (truthy (trim (problem (app p)))); [| discriminate].
    injection Hd as <-.
    apply length_zero_iff_nil in Hcards. rewrite Hcards.
    apply render_ok_initial; [| constructor].
    apply startAnalysis_ok; [apply (ok_state p Hok) | tauto ..].
  - destruct (activeCard p) as [c |] eqn:Ec; [| discriminate].
    simpl in Hd. injection Hd as <-.
    split; simpl.
    + apply (ok_state p Hok).
    + apply Forall_insert; [apply (ok_cards p Hok) |].
      split; [apply sanitizeInput_tag_free | apply message_of_None].
    + intros i c' Hi Hne. rewrite list_lookup_insert_ne in Hi by congruence.
      apply (ok_inactive p Hok i c' Hi Hne).
  - apply submit_ok with p; assumption.
  - destruct (activeCard p) as [c |]; [| discriminate]. simpl in Hd.
    destruct (truthy (trim (WhyCard.inputValue c))); [| discriminate].
    apply submit_ok with p; assumption.
  - destruct (isStarted (app p)); [| discriminate]. injection Hd as <-.
    cbn [resetAnalysis render mount isStarted].
    split; simpl; [apply state_ok_initial | constructor |].
    intros i c Hi. discriminate.
Qed.

Lemma reachable_ok (p : Page) : reachable p -> page_ok p.
Proof.
  induction 1 as [| p p' e Hp IH Hd]; [apply page_ok_initial |].
  apply dispatch_ok with e p; [apply reachable_inv, Hp | exact IH | exact Hd].
Qed.

Lemma typed_page_reachable : reachable typed_page.
Proof.
  apply (run_reachable
           [ProblemChange car; StartClick; AnswerChange (of_string " Battery dead ")]
           initialPage); [apply reachable_initial | vm_compute; reflexivity].
Qed.

Lemma typed_page_enter : dispatch AnswerEnter typed_page = Some sample_page.
Proof. vm_compute. reflexivity. Qed.

Lemma chained_lookup (steps : list WhyStep) :
  forall (seed : jsstring) (i : nat) (st st' : WhyStep),
    chained seed steps ->
    (steps !! 0 = Some st -> question st = why_question seed)
    /\ (steps !! i = Some st -> steps !! S i = Some st' ->
        question st' = why_question (answer st)).
Proof.
  induction steps as [| x steps IH]; intros seed i st st' Hc;
    [split; discriminate |].
  destruct Hc as [Hq Hrest]. split.
  - intros [= <-]. exact Hq.
  - destruct i as [| i]; simpl.
    + intros [= <-] H. apply (IH (answer x) 0 st' st' Hrest), H.
    + apply (IH (answer x) i st st' Hrest).
Qed.

(** The template literal of the two handlers, spelled out. *)
Lemma why_question_template (text : jsstring) :
  why_question text
  = of_string "Why is " ++ [dquote] ++ text ++ [dquote] ++ of_string " happening?".
Proof. reflexivity. Qed.

(** X3. On every reachable page the questions form a chain: the first
    question is [Why is "<problem>" happening?] with the problem text as it
    is stored between the quotes, and every later question is
    [Why is "<answer>" happening?] with the answer recorded on the step
    before it between the quotes. *)
Theorem questions_chained (p : Page) (Hp : reachable p) :
  (forall st : WhyStep,
     whySteps (app p) !! 0 = Some st ->
     question st
     = of_string "Why is " ++ [dquote] ++ problem (app p) ++ [dquote]
       ++ of_string " happening?")
  /\ (forall (i : nat) (st st' : WhyStep),
        whySteps (app p) !! i = Some st -> whySteps (app p) !! S i = Some st' ->
        question st'
        = of_string "Why is " ++ [dquote] ++ answer st ++ [dquote]
          ++ of_string " happening?").
Proof.
  pose proof (ok_chain _ (ok_state p (reachable_ok p Hp))) as Hc. split.
  - intros st Hst. rewrite <- why_question_template.
    apply (chained_lookup _ _ 0 st st Hc), Hst.
  - intros i st st' Hst Hst'. rewrite <- why_question_template.
    apply (chained_lookup _ _ i st st' Hc); assumption.
Qed.

Lemma questions_chained_witness :
  reachable sample_page
  /\ (forall st st' : WhyStep,
        whySteps (app sample_page) !! 0 = Some st ->
        whySteps (app sample_page) !! 1 = Some st' ->
        question st
        = of_string "Why is " ++ [dquote] ++ of_string "Car won't start"
          ++ [dquote] ++ of_string " happening?"
        /\ question st'
           = of_string "Why is " ++ [dquote] ++ of_string "Battery dead"
             ++ [dquote] ++ of_string " happening?").
Proof.
  split; [apply sample_page_reachable |].
  destruct (questions_chained sample_page sample_page_reachable) as [H0 HS].
  intros st st' Hst Hst'. split; [apply (H0 st Hst) |].
  rewrite (HS 0 st st' Hst Hst'). injection Hst as <-. reflexivity.
Defined.

(** X4. On every reachable page the steps before the current index carry a
    recorded answer, which is not empty, has no white space at its ends, is
    at most 500 characters long, matches no injection pattern and holds no
    complete tag; the steps from the current index on are unanswered. *)
Theorem answers_recorded (p : Page) (Hp : reachable p) :
  forall (i : nat) (st : WhyStep),
    whySteps (app p) !! i = Some st ->
    (i < currentStep (app p) ->
     answer st <> [] /\ edge_free (answer st) /\ length (answer st) <= 500
     /\ regex_test re_injection (answer st) = false
     /\ regex_test re_tag (answer st) = false)
    /\ (currentStep (app p) <= i -> answer st = []).
Proof.
  intros i st Hst. pose proof (ok_state p (reachable_ok p Hp)) as Hok. split.
  - intros Hi. pose proof (ok_answered _ Hok) as H.
    eapply Forall_lookup_1 in H; [| rewrite lookup_take_lt by exact Hi; exact Hst].
    destruct H as (Hne & Hparse & Htag).
    apply inputSchema_accepts in Hparse as [Hlen Hinj].
    split; [exact Hne |]. split.
    + pose proof (inv_answers p (reachable_inv p Hp)) as He.
      eapply Forall_lookup_1 in He; [exact He | exact Hst].
    + split; [exact Hlen |]. split; [exact Hinj | apply regex_test_tag_false, Htag].
  - intros Hi. pose proof (ok_pending _ Hok) as H.
    eapply Forall_lookup_1 in H; [exact H |].
    rewrite lookup_drop. replace (currentStep (app p) + (i - currentStep (app p)))
      with i by lia. exact Hst.
Qed.

Lemma answers_recorded_witness :
  reachable sample_page
  /\ whySteps (app sample_page) !! 0
     = Some (step (why_question car) (of_string "Battery dead"))
  /\ regex_test re_injection (of_string "Battery dead") = false.
Proof.
  split; [apply sample_page_reachable |]. split; [reflexivity |].
  destruct (answers_recorded sample_page sample_page_reachable 0
              (step (why_question car) (of_string "Battery dead")) eq_refl)
    as [H _].
  destruct (H ltac:(simpl; lia)) as (_ & _ & _ & Hinj & _). exact Hinj.
Defined.

Lemma submit_started (p p' : Page) :
  submit p = Some p' ->
  isStarted (app p) = true /\ problem (app p') = problem (app p).
Proof.
  unfold submit, activeCard. intros Hsub.
  destruct (isStarted (app p)); [| discriminate]. split; [reflexivity |].
  destruct (cards p !! currentStep (app p)) as [c |]; [| discriminate].
  simpl in Hsub. unfold WhyCard.handleSubmit in Hsub.
  destruct (safeParse inputSchema (WhyCard.inputValue c)).
  - destruct (truthy (trim (WhyCard.inputValue c))).
    + unfold handleAnswerSubmit in Hsub.
      destruct (whySteps (app p) !! currentStep (app p)); [| discriminate].
      destruct (currentStep (app p) <? 4); simpl in Hsub; injection Hsub as <-;
        reflexivity.
    + simpl in Hsub. injection Hsub as <-. reflexivity.
  - simpl in Hsub. injection Hsub as <-. reflexivity.
Qed.

(** The problem text of a started session is not blank: the start button is
    disabled on a blank text. *)
Lemma reachable_nonblank (p : Page) :
  reachable p -> isStarted (app p) = true ->
  truthy (trim (problem (app p))) = true.
Proof.
  induction 1 as [| p p' e Hp IH Hd]; [discriminate |].
  destruct e; simpl in Hd.
  - destruct (isStarted (app p)) eqn:Hst; [discriminate |]. injection Hd as <-.
    simpl. rewrite Hst. discriminate.
  - destruct (isStarted (app p)); [discriminate |].
    destruct (truthy (trim (problem (app p)))) eqn:Ht; [| discriminate].
    injection Hd as <-. intros _. simpl. unfold startAnalysis.
    destruct (safeParse problemSchema (problem (app p))); exact Ht.
  - destruct (activeCard p) eqn:Ec; [| discriminate]. simpl in Hd.
    injection Hd as <-. exact IH.
  - destruct (submit_started p p' Hd) as [Hst ->]. intros _. apply IH, Hst.
  - destruct (activeCard p) as [c |]; [| discriminate]. simpl in Hd.
    destruct (truthy (trim (WhyCard.inputValue c))); [| discriminate].
    destruct (submit_started p p' Hd) as [Hst ->]. intros _. apply IH, Hst.
  - destruct (isStarted (app p)); [| discriminate]. injection Hd as <-.
    discriminate.
Qed.

(** X5. On every reachable page with a started session the stored problem
    text is one the problem schema accepts (3 to 500 characters, no match of
    the injection pattern), it is not blank, it holds no complete tag, and no
    error message is pending. *)
Theorem started_problem_valid (p : Page) (Hp : reachable p)
  (Hst : isStarted (app p) = true) :
  spec_valid (problem (app p))
  /\ ~ blank (problem (app p))
  /\ regex_test re_tag (problem (app p)) = false
  /\ error (app p) = None.
Proof.
  pose proof (ok_state p (reachable_ok p Hp)) as Hok.
  split; [apply problemSchema_accepts, (ok_problem _ Hok Hst) |].
  split.
  { intros Hb. apply trim_truthy_false in Hb.
    rewrite (reachable_nonblank p Hp Hst) in Hb. discriminate. }
  split; [apply regex_test_tag_false, (ok_problem_tags _ Hok) |].
  apply (ok_error_idle _ Hok Hst).
Qed.

Lemma started_problem_valid_witness :
  reachable sample_page
  /\ isStarted (app sample_page) = true
  /\ spec_valid (problem (app sample_page)).
Proof.
  split; [apply sample_page_reachable |]. split; [reflexivity |].
  apply (started_problem_valid sample_page sample_page_reachable eq_refl).
Defined.

Lemma refused_page_reachable : reachable refused_page.
Proof.
  apply (run_reachable [ProblemChange (of_string "ab"); StartClick] initialPage);
    [apply reachable_initial | vm_compute; reflexivity].
Qed.

Lemma completed_page_reachable : reachable completed_page.
Proof.
  apply (run_reachable completed_events initialPage);
    [apply reachable_initial | vm_compute; reflexivity].
Qed.

Lemma first_message_problemSchema (v : jsstring) :
  safeParse problemSchema v <> [] ->
  first_message (safeParse problemSchema v)
  = if length v <? 3 then msg_too_short
    else if 500 <? length v then msg_too_long else msg_invalid.
Proof.
  rewrite safeParse_problemSchema.
  destruct (length v <? 3), (500 <? length v), (regex_test re_injection v);
    first [reflexivity | contradiction].
Qed.

Lemma first_message_inputSchema (v : jsstring) :
  safeParse inputSchema v <> [] ->
  first_message (safeParse inputSchema v)
  = if 500 <? length v then msg_too_long else msg_invalid.
Proof.
  rewrite safeParse_inputSchema.
  destruct (500 <? length v), (regex_test re_injection v);
    first [reflexivity | contradiction].
Qed.

(** X6. On every reachable page a message is shown only for a text the
    schema refuses as it stands, and it is the message of the first check that
    text fails: for the problem text only while the session is not started,
    for an answer only on the active card. *)
Theorem messages_truthful (p : Page) (Hp : reachable p) :
  (forall m : jsstring,
     error (app p) = Some m ->
     isStarted (app p) = false
     /\ ~ spec_valid (problem (app p))
     /\ m = if length (problem (app p)) <? 3 then msg_too_short
            else if 500 <? length (problem (app p)) then msg_too_long
                 else msg_invalid)
  /\ (forall (i : nat) (c : WhyCard.State) (m : jsstring),
        cards p !! i = Some c -> WhyCard.error c = Some m ->
        i = currentStep (app p)
        /\ ~ (length (WhyCard.inputValue c) <= 500
              /\ regex_test re_injection (WhyCard.inputValue c) = false)
        /\ m = if 500 <? length (WhyCard.inputValue c) then msg_too_long
               else msg_invalid).
Proof.
  pose proof (reachable_ok p Hp) as Hok. split.
  - intros m Hm. pose proof (ok_state p Hok) as Hs.
    destruct (ok_error _ Hs m Hm) as [Hne ->].
    split; [| split].
    + destruct (isStarted (app p)) eqn:Hst; [| reflexivity].
      rewrite (ok_error_idle _ Hs Hst) in Hm. discriminate.
    + intros Hv. apply problemSchema_accepts in Hv. contradiction.
    + apply first_message_problemSchema, Hne.
  - intros i c m Hc Hm.
    assert (Hi : i = currentStep (app p)).
    { destruct (decide (i = currentStep (app p))) as [E | E]; [exact E |].
      rewrite (ok_inactive p Hok i c Hc E) in Hm. discriminate. }
    pose proof (ok_cards p Hok) as Hwf.
    eapply Forall_lookup_1 in Hwf; [| exact Hc]. destruct Hwf as [_ Hmsg].
    destruct (Hmsg m Hm) as [Hne ->].
    split; [exact Hi |]. split.
    + intros Hv. apply inputSchema_accepts in Hv. contradiction.
    + apply first_message_inputSchema, Hne.
Qed.

Lemma messages_truthful_witness :
  reachable refused_page
  /\ error (app refused_page) = Some (of_string "Problem must be at least 3 characters")
  /\ ~ spec_valid (problem (app refused_page)).
Proof.
  split; [apply refused_page_reachable |]. split; [reflexivity |].
  destruct (messages_truthful refused_page refused_page_reachable) as [H _].
  destruct (H msg_too_short eq_refl) as (_ & Hv & _). exact Hv.
Defined.

Lemma submit_steps (p p' : Page) :
  page_inv p -> submit p = Some p' ->
  problem (app p') = problem (app p)
  /\ forall (i : nat) (st : WhyStep),
       whySteps (app p) !! i = Some st ->
       exists st' : WhyStep,
         whySteps (app p') !! i = Some st' /\ question st' = question st
         /\ (i < currentStep (app p) -> st' = st).
Proof.
  intros Hinv Hsub. unfold submit in Hsub.
  destruct (activeCard p) as [c |] eqn:Ec; [| discriminate]. simpl in Hsub.
  destruct (activeCard_index p c Hinv Ec) as (Hst & _ & Hcur & Hlen).
  assert (Hsame : forall (i : nat) (st : WhyStep),
             whySteps (app p) !! i = Some st ->
             exists st' : WhyStep,
               whySteps (app p) !! i = Some st' /\ question st' = question st
               /\ (i < currentStep (app p) -> st' = st))
    by (intros i st Hi; exists st; tauto).
  unfold WhyCard.handleSubmit in Hsub.
  destruct (safeParse inputSchema (WhyCard.inputValue c)) as [| m ms].
  - destruct (truthy (trim (WhyCard.inputValue c))).
    + destruct (steps_snoc _ _ Hlen) as (init & last & Hsteps & Hinit).
      rewrite (handleAnswerSubmit_snoc _ _ init last Hsteps (eq_sym Hinit)) in Hsub.
      simpl in Hsub. injection Hsub as <-. simpl. split; [reflexivity |].
      intros i st Hi. rewrite Hsteps in Hi. rewrite <- Hinit.
      destruct (decide (i < length init)) as [Hlt | Hge].
      * rewrite lookup_app_l in Hi by exact Hlt.
        exists st. rewrite lookup_app_l by exact Hlt. tauto.
      * pose proof (lookup_lt_Some _ _ _ Hi) as Hb.
        rewrite length_app in Hb. simpl in Hb.
        assert (i = length init) as -> by lia.
        rewrite lookup_app_r, Nat.sub_diag in Hi by reflexivity.
        injection Hi as <-.
        exists (set_answer (trim (WhyCard.inputValue c)) last).
        rewrite lookup_app_r, Nat.sub_diag by reflexivity.
        split; [reflexivity |]. split; [reflexivity | lia].
    + simpl in Hsub. injection Hsub as <-. split; [reflexivity | exact Hsame].
  - simpl in Hsub. injection Hsub as <-. split; [reflexivity | exact Hsame].
Qed.

(** X7. No event other than the reset changes an answered step, the question
    of any step, or the stored problem text of a started session. *)
Theorem answered_steps_kept (p p' : Page) (e : Event) (Hp : reachable p)
  (Hd : dispatch e p = Some p') (He : e <> ResetClick) :
  (isStarted (app p) = true -> problem (app p') = problem (app p))
  /\ forall (i : nat) (st : WhyStep),
       whySteps (app p) !! i = Some st ->
       exists st' : WhyStep,
         whySteps (app p') !! i = Some st' /\ question st' = question st
         /\ (i < currentStep (app p) -> st' = st).
Proof.
  pose proof (reachable_inv p Hp) as Hinv.
  pose proof (inv_shape p Hinv) as Hshape. unfold step_shape in Hshape.
  destruct e; simpl in Hd.
  - destruct (isStarted (app p)); [discriminate |]. destruct Hshape as [Hnil _].
    split; [discriminate |]. intros i st Hi. rewrite Hnil in Hi. discriminate.
  - destruct (isStarted (app p)); [discriminate |]. destruct Hshape as [Hnil _].
    split; [discriminate |]. intros i st Hi. rewrite Hnil in Hi. discriminate.
  - destruct (activeCard p); [| discriminate]. simpl in Hd. injection Hd as <-.
    split; [reflexivity |]. intros i st Hi. exists st. tauto.
  - destruct (submit_steps p p' Hinv Hd) as [H1 H2]. split; [intros _; exact H1 | exact H2].
  - destruct (activeCard p) as [c |]; [| discriminate]. simpl in Hd.
    destruct (truthy (trim (WhyCard.inputValue c))); [| discriminate].
    destruct (submit_steps p p' Hinv Hd) as [H1 H2]. split; [intros _; exact H1 | exact H2].
  - contradiction.
Qed.

Lemma answered_steps_kept_witness :
  reachable typed_page
  /\ dispatch AnswerEnter typed_page = Some sample_page
  /\ AnswerEnter <> ResetClick
  /\ problem (app sample_page) = problem (app typed_page).
Proof.
  split; [apply typed_page_reachable |]. split; [apply typed_page_enter |].
  split; [discriminate |].
  destruct (answered_steps_kept typed_page sample_page AnswerEnter
              typed_page_reachable typed_page_enter ltac:(discriminate))
    as [H _].
  apply H. reflexivity.
Defined.

(** ** What the cards show *)

Lemma answered_before (p : Page) :
  reachable p ->
  forall (i : nat) (st : WhyStep),
    whySteps (app p) !! i = Some st -> i < currentStep (app p) ->
    answer st <> [].
Proof.
  intros Hp i st Hi Hlt.
  pose proof (ok_answered _ (ok_state p (reachable_ok p Hp))) as H.
  eapply Forall_lookup_1 in H; [| rewrite lookup_take_lt by exact Hlt; exact Hi].
  apply H.
Qed.

Lemma cardProps_lookup (s : State) (i : nat) (c : CardView.WhyCardProps) :
  cardProps s !! i = Some c ->
  isStarted s = true
  /\ exists st : WhyStep,
       whySteps s !! i = Some st
       /\ c = {| CardView.whyNumber := i + 1;
                 CardView.question := question st;
                 CardView.isActive := currentStep s =? i;
                 CardView.isCompleted := i <? currentStep s;
                 CardView.answer := answer st |}.
Proof.
  unfold cardProps. destruct (isStarted s); [| discriminate].
  rewrite list_lookup_imap. destruct (whySteps s !! i) as [st |]; [| discriminate].
  intros [= <-]. split; [reflexivity |]. exists st. split; reflexivity.
Qed.

Lemma classes_defined (n : nat) :
  (is_Some (CardView.cardClasses !! n) <-> 1 <= n <= 5)
  /\ (is_Some (CardView.badgeClasses !! n) <-> 1 <= n <= 5).
Proof.
  destruct (decide (1 <= n <= 5)) as [Hn | Hn].
  - assert (n = 1 \/ n = 2 \/ n = 3 \/ n = 4 \/ n = 5) as Hcases by lia.
    split; (split; [intros _; exact Hn |]); intros _;
      destruct Hcases as [-> | [-> | [-> | [-> | ->]]]]; eexists; reflexivity.
  - split; (split; [| intros H; contradiction]); intros [x Hx]; exfalso;
      unfold CardView.cardClasses, CardView.badgeClasses in Hx;
      rewrite !lookup_insert_ne in Hx by lia; rewrite lookup_empty in Hx;
      discriminate.
Qed.

(** The entries of the two tables: the class of number [n] ends with the
    digit of [n]. *)
Lemma classes_values (n : nat) :
  1 <= n <= 5 ->
  CardView.cardClasses !! n
  = Some (of_string "why-card-" ++ [N.of_nat (48 + n)])
  /\ CardView.badgeClasses !! n
     = Some (of_string "why-badge-" ++ [N.of_nat (48 + n)]).
Proof.
  intros Hn. assert (n = 1 \/ n = 2 \/ n = 3 \/ n = 4 \/ n = 5) as Hcases by lia.
  destruct Hcases as [-> | [-> | [-> | [-> | ->]]]]; split; reflexivity.
Qed.

(** X8. The two class tables have exactly the keys 1 to 5: a number has an
    entry in either table if and only if it is between 1 and 5. Every card
    of a reachable page is numbered by its position plus one, within 1 to 5,
    so the two lookups a card makes with its number are never undefined
    (they yield [why-card-<n>] and [why-badge-<n>]), and there are at most
    five cards. *)
Theorem card_classes_defined (p : Page) (Hp : reachable p) :
  (forall n : nat, is_Some (CardView.cardClasses !! n) <-> 1 <= n <= 5)
  /\ (forall n : nat, is_Some (CardView.badgeClasses !! n) <-> 1 <= n <= 5)
  /\ (forall n : nat,
        ~ 1 <= n <= 5 ->
        CardView.cardClasses !! n = None /\ CardView.badgeClasses !! n = None)
  /\ length (cardProps (app p)) <= 5
  /\ forall (i : nat) (c : CardView.WhyCardProps),
       cardProps (app p) !! i = Some c ->
       CardView.whyNumber c = i + 1
       /\ 1 <= CardView.whyNumber c <= 5
       /\ is_Some (CardView.cardClasses !! CardView.whyNumber c)
       /\ is_Some (CardView.badgeClasses !! CardView.whyNumber c)
       /\ CardView.cardClasses !! CardView.whyNumber c
          = Some (of_string "why-card-" ++ [N.of_nat (48 + CardView.whyNumber c)])
       /\ CardView.badgeClasses !! CardView.whyNumber c
          = Some (of_string "why-badge-" ++ [N.of_nat (48 + CardView.whyNumber c)]).
Proof.
  pose proof (inv_shape p (reachable_inv p Hp)) as Hshape.
  unfold step_shape in Hshape.
  split; [intros n; apply (classes_defined n) |].
  split; [intros n; apply (classes_defined n) |].
  split.
  { intros n Hn. destruct (classes_defined n) as [H1 H2]. split.
    - destruct (CardView.cardClasses !! n) eqn:E; [| reflexivity].
      exfalso. apply Hn, H1. eexists; reflexivity.
    - destruct (CardView.badgeClasses !! n) eqn:E; [| reflexivity].
      exfalso. apply Hn, H2. eexists; reflexivity. }
  split.
  - unfold cardProps. destruct (isStarted (app p)); [| simpl; lia].
    rewrite length_imap. lia.
  - intros i c Hc. apply cardProps_lookup in Hc as (Hst & st & Hi & ->).
    rewrite Hst in Hshape. apply lookup_lt_Some in Hi.
    cbn [CardView.whyNumber].
    assert (Hn : 1 <= i + 1 <= 5) by lia.
    split; [reflexivity |]. split; [exact Hn |].
    split; [apply classes_defined, Hn |]. split; [apply classes_defined, Hn |].
    apply classes_values, Hn.
Qed.

Lemma card_classes_defined_witness :
  reachable completed_page
  /\ length (cardProps (app completed_page)) <= 5
  /\ CardView.cardClasses !! 5 = Some (of_string "why-card-5")
  /\ CardView.cardClasses !! 6 = None
  /\ CardView.badgeClasses !! 0 = None.
Proof.
  split; [apply completed_page_reachable |].
  destruct (card_classes_defined completed_page completed_page_reachable)
    as (_ & _ & Hout & H & _).
  split; [exact H |]. split; [reflexivity |].
  split; [apply (Hout 6); lia | apply (Hout 0); lia].
Defined.

(** X9. On every reachable page each card is either the active one or a
    completed one, never both and never neither, so that no card is dimmed.
    A completed card shows its answer; the active card, which is the last
    one, has none to show. While the analysis is in progress exactly one
    card is active, and once it is completed none is. *)
Theorem cards_active_or_completed (p : Page) (Hp : reachable p) :
  (forall (i : nat) (c : CardView.WhyCardProps),
     cardProps (app p) !! i = Some c ->
     CardView.isActive c = negb (CardView.isCompleted c)
     /\ CardView.dimmed c = false
     /\ (CardView.isCompleted c = true -> CardView.showsAnswer c = true)
     /\ (CardView.isActive c = true ->
         CardView.showsAnswer c = false /\ i = currentStep (app p)
         /\ length (cardProps (app p)) = i + 1))
  /\ (isStarted (app p) = true -> isCompleted (app p) = false ->
      exists c : CardView.WhyCardProps,
        cardProps (app p) !! currentStep (app p) = Some c
        /\ CardView.isActive c = true)
  /\ (isCompleted (app p) = true ->
      forall (i : nat) (c : CardView.WhyCardProps),
        cardProps (app p) !! i = Some c -> CardView.isActive c = false).
Proof.
  pose proof (inv_shape p (reachable_inv p Hp)) as Hshape.
  unfold step_shape in Hshape. split; [| split].
  - intros i c Hc.
    pose proof (cardProps_lookup _ _ _ Hc) as (Hst & st & Hi & ->).
    rewrite Hst in Hshape.
    pose proof (lookup_lt_Some _ _ _ Hi) as Hlt.
    pose proof (answered_before p Hp i st Hi) as Hbefore.
    unfold CardView.dimmed, CardView.showsAnswer. simpl.
    destruct (Nat.eqb_spec (currentStep (app p)) i) as [E | E];
      destruct (Nat.ltb_spec i (currentStep (app p))) as [L | L];
      try lia; simpl.
    + split; [reflexivity |]. split; [reflexivity |]. split; [discriminate |].
      intros _. split; [reflexivity |]. split; [congruence |].
      unfold cardProps. rewrite Hst, length_imap. lia.
    + split; [reflexivity |]. split; [reflexivity |]. split; [| discriminate].
      intros _. apply truthy_ne. apply (Hbefore L).
  - intros Hst Hc. rewrite Hst in Hshape. unfold isCompleted in Hc.
    apply Nat.eqb_neq in Hc.
    assert (Hlt : currentStep (app p) < length (whySteps (app p))) by lia.
    destruct (lookup_lt_is_Some_2 _ _ Hlt) as [st Hi].
    eexists. unfold cardProps. rewrite Hst, list_lookup_imap, Hi. simpl.
    split; [reflexivity |]. simpl. apply Nat.eqb_refl.
  - intros Hc i c Hi. unfold isCompleted in Hc. apply Nat.eqb_eq in Hc.
    apply cardProps_lookup in Hi as (Hst & st & Hi & ->).
    rewrite Hst in Hshape. apply lookup_lt_Some in Hi. simpl.
    apply Nat.eqb_neq. lia.
Qed.

Lemma cards_active_or_completed_witness :
  reachable sample_page
  /\ (forall c : CardView.WhyCardProps,
        cardProps (app sample_page) !! 0 = Some c ->
        CardView.isActive c = false /\ CardView.showsAnswer c = true).
Proof.
  split; [apply sample_page_reachable |].
  destruct (cards_active_or_completed sample_page sample_page_reachable)
    as [H _].
  intros c Hc. destruct (H 0 c Hc) as (Ha & _ & Hs & _).
  injection Hc as <-. split; [reflexivity | apply Hs; reflexivity].
Defined.

Lemma labels_differ : CardView.label_continue <> CardView.label_complete.
Proof. intros H. vm_compute in H. discriminate. Qed.

(** X10. The button of the active card announces what submitting does: on
    every reachable page it reads "Complete" exactly when a forwarded answer
    completes the analysis, and "Continue" exactly when it opens a further
    step. *)
Theorem button_label_matches (p : Page) (Hp : reachable p) :
  forall (i : nat) (c : CardView.WhyCardProps) (a : jsstring),
    cardProps (app p) !! i = Some c -> CardView.isActive c = true ->
    exists s' : State,
      handleAnswerSubmit a (app p) = Some s'
      /\ (CardView.buttonLabel c = CardView.label_complete
          <-> isCompleted s' = true)
      /\ (CardView.buttonLabel c = CardView.label_continue
          <-> isCompleted s' = false
              /\ currentStep s' = currentStep (app p) + 1
              /\ length (whySteps s') = length (whySteps (app p)) + 1).
Proof.
  intros i c a Hc Hact.
  pose proof (inv_shape p (reachable_inv p Hp)) as Hshape.
  unfold step_shape in Hshape.
  apply cardProps_lookup in Hc as (Hst & st & Hi & ->).
  rewrite Hst in Hshape. simpl in Hact. apply Nat.eqb_eq in Hact.
  pose proof (lookup_lt_Some _ _ _ Hi) as Hlt.
  destruct Hshape as [[Hcur Hlen] | [Hcur Hlen]]; [| lia].
  destruct (steps_snoc _ _ Hlen) as (init & last & Hsteps & Hinit).
  rewrite (handleAnswerSubmit_snoc a _ init last Hsteps (eq_sym Hinit)).
  eexists. split; [reflexivity |].
  subst i. unfold CardView.buttonLabel, isCompleted. cbn [CardView.whyNumber
    currentStep whySteps]. rewrite Hsteps, !length_app, Hinit. cbn [length].
  pose proof labels_differ as Hne.
  destruct (Nat.ltb_spec (currentStep (app p) + 1) 5) as [L | L];
    destruct (Nat.ltb_spec (currentStep (app p)) 4) as [L' | L']; try lia.
  - split; split; intros H.
    + congruence.
    + apply Nat.eqb_eq in H. lia.
    + split; [apply Nat.eqb_neq; lia | simpl; lia].
    + reflexivity.
  - split; split; intros H.
    + reflexivity.
    + reflexivity.
    + congruence.
    + destruct H as [H _]. discriminate.
Qed.

Lemma button_label_matches_witness :
  reachable typed_page
  /\ (forall c : CardView.WhyCardProps,
        cardProps (app typed_page) !! 0 = Some c ->
        CardView.buttonLabel c = CardView.label_continue).
Proof.
  split; [apply typed_page_reachable |]. intros c Hc.
  destruct (button_label_matches typed_page typed_page_reachable 0 c
              (of_string "Battery dead") Hc)
    as (s' & Hs' & _ & Hcont).
  - injection Hc as <-. reflexivity.
  - injection Hs' as <-. apply Hcont. repeat split.
Defined.

(** X11. When the completion message is shown on a reachable page there are
    exactly five steps and five cards, none of them active, and the root
    cause it displays is defined: it is the answer of the fifth and last
    step, not empty and without white space at its ends. *)
Theorem root_cause_shown (p : Page) (Hp : reachable p)
  (Hc : showsCompletion (app p) = true) :
  length (whySteps (app p)) = 5
  /\ length (cardProps (app p)) = 5
  /\ activeCard p = None
  /\ exists st : WhyStep,
       last (whySteps (app p)) = Some st
       /\ rootCause (app p) = Some (answer st)
       /\ answer st <> [] /\ edge_free (answer st).
Proof.
  pose proof (reachable_inv p Hp) as Hinv.
  pose proof (inv_shape p Hinv) as Hshape. unfold step_shape in Hshape.
  unfold showsCompletion, isCompleted in Hc.
  apply andb_true_iff in Hc as [Hst Hcur]. apply Nat.eqb_eq in Hcur.
  rewrite Hst in Hshape. destruct Hshape as [[H _] | [_ Hlen]]; [lia |].
  split; [exact Hlen |].
  split; [unfold cardProps; rewrite Hst, length_imap; exact Hlen |].
  split.
  - destruct (activeCard p) as [c |] eqn:E; [| reflexivity].
    destruct (activeCard_index p c Hinv E) as (_ & _ & H & _). lia.
  - assert (Hlt : 4 < length (whySteps (app p))) by lia.
    destruct (lookup_lt_is_Some_2 _ _ Hlt) as [st Hi].
    exists st. split; [rewrite last_lookup, Hlen; exact Hi |].
    split; [unfold rootCause; rewrite Hi; reflexivity |].
    split; [apply (answered_before p Hp 4 st Hi); lia |].
    pose proof (inv_answers p Hinv) as He.
    eapply Forall_lookup_1 in He; [exact He | exact Hi].
Qed.

Lemma root_cause_shown_witness :
  reachable completed_page
  /\ showsCompletion (app completed_page) = true
  /\ rootCause (app completed_page) = Some (of_string "No maintenance")
  /\ activeCard completed_page = None.
Proof.
  split; [apply completed_page_reachable |]. split; [reflexivity |].
  split; [reflexivity |].
  apply (root_cause_shown completed_page completed_page_reachable eq_refl).
Defined.

(** ** Typing an answer and submitting it *)

Lemma all_initial_replicate (cs : list WhyCard.State) :
  Forall (fun c => c = WhyCard.initial) cs ->
  cs = replicate (length cs) WhyCard.initial.
Proof.
  induction 1 as [| c cs -> _ IH]; simpl; [reflexivity | f_equal; exact IH].
Qed.

Lemma active_card_exists (p : Page) :
  page_inv p -> isStarted (app p) = true -> currentStep (app p) <= 4 ->
  currentStep (app p) < length (cards p)
  /\ exists c, activeCard p = Some c.
Proof.
  intros [Hshape Hcards _ _] Hst Hcur. unfold step_shape in Hshape.
  unfold activeCard. rewrite Hst in *.
  assert (Hlt : currentStep (app p) < length (cards p)) by lia.
  split; [exact Hlt | apply lookup_lt_is_Some_2, Hlt].
Qed.

(** X12. On a reachable page with a step open, typing a text whose
    sanitized form the answer schema accepts and which is not blank, then
    pressing Enter, records the sanitized and trimmed text on the open step
    and moves on: the controller's state is that of [handleAnswerSubmit] on
    this text, and every card is back in its initial state. The button does
    the same as the key. *)
Theorem typed_answer_recorded (p : Page) (v : jsstring) (Hp : reachable p)
  (Hst : isStarted (app p) = true) (Hcur : currentStep (app p) <= 4)
  (Hparse : safeParse inputSchema (sanitizeInput v) = [])
  (Htrim : truthy (trim (sanitizeInput v)) = true) :
  exists (s' : State) (st : WhyStep),
    whySteps (app p) !! currentStep (app p) = Some st
    /\ handleAnswerSubmit (trim (sanitizeInput v)) (app p) = Some s'
    /\ whySteps s' !! currentStep (app p)
       = Some {| question := question st; answer := trim (sanitizeInput v) |}
    /\ currentStep (app p) < currentStep s'
    /\ run [AnswerChange v; AnswerEnter] p
       = Some {| app := s';
                 cards := replicate (length (whySteps s')) WhyCard.initial |}
    /\ run [AnswerChange v; AnswerClick] p = run [AnswerChange v; AnswerEnter] p.
Proof.
  pose proof (reachable_inv p Hp) as Hinv. pose proof (reachable_ok p Hp) as Hok.
  destruct (active_card_exists p Hinv Hst Hcur) as (Hlt & c0 & Hc0).
  pose proof (inv_shape p Hinv) as Hshape. unfold step_shape in Hshape.
  rewrite Hst in Hshape. destruct Hshape as [[_ Hlen] | [? _]]; [| lia].
  destruct (steps_snoc _ _ Hlen) as (init & st & Hsteps & Hinit).
  set (a := trim (sanitizeInput v)).
  pose proof (handleAnswerSubmit_snoc a _ init st Hsteps (eq_sym Hinit)) as Hs'.
  set (typed := {| WhyCard.inputValue := sanitizeInput v; WhyCard.error := None |}).
  set (p1 := {| app := app p;
                cards := <[currentStep (app p) := typed]> (cards p) |}).
  assert (Hd1 : dispatch (AnswerChange v) p = Some p1)
    by (cbn [dispatch]; rewrite Hc0; reflexivity).
  assert (Hc1 : activeCard p1 = Some typed).
  { unfold activeCard, p1. cbn [app cards]. rewrite Hst.
    apply list_lookup_insert_eq, Hlt. }
  match type of Hs' with _ = Some ?x => set (s' := x) in * end.
  assert (Hsub : submit p1
                 = Some {| app := s';
                           cards := replicate (length (whySteps s')) WhyCard.initial |}).
  { unfold submit. rewrite Hc1. cbn [mbind option_bind].
    rewrite (handleSubmit_forward _ typed (app p1) Hparse Htrim).
    change (app p1) with (app p).
    change (trim (WhyCard.inputValue typed)) with a. rewrite Hs'.
    cbn [mbind option_bind fst snd]. unfold render. do 2 f_equal.
    unfold p1. cbn [cards app]. rewrite list_insert_insert_eq.
    assert (Hall : Forall (fun c => c = WhyCard.initial)
                     (<[currentStep (app p) := WhyCard.initial]> (cards p))).
    { apply Forall_lookup_2. intros i c Hi.
      apply list_lookup_insert_Some in Hi as [(_ & <- & _) | [Hne Hi]];
        [reflexivity |].
      apply (ok_inactive p Hok i c Hi). congruence. }
    apply (mount_all_initial s') in Hall.
    change {| WhyCard.inputValue := []; WhyCard.error := WhyCard.error typed |}
      with WhyCard.initial.
    rewrite (all_initial_replicate _ Hall), mount_length.
    unfold s' at 1. cbn [isStarted]. rewrite Hst. reflexivity. }
  exists s', st.
  split; [rewrite Hsteps, <- Hinit, lookup_app_r, Nat.sub_diag by reflexivity;
          reflexivity |].
  split; [exact Hs' |]. split.
  { unfold s'. cbn [whySteps]. rewrite <- Hinit.
    rewrite lookup_app_r, Nat.sub_diag by reflexivity. reflexivity. }
  split.
  { unfold s'. cbn [currentStep]. rewrite <- Hinit.
    destruct (Nat.ltb_spec (length init) 4); lia. }
  assert (Hrun : run [AnswerChange v; AnswerEnter] p
                 = Some {| app := s';
                           cards := replicate (length (whySteps s')) WhyCard.initial |}).
  { cbn [run]. rewrite Hd1. cbn [mbind option_bind dispatch]. rewrite Hsub.
    reflexivity. }
  split; [exact Hrun |]. rewrite Hrun.
  cbn [run]. rewrite Hd1. cbn [mbind option_bind dispatch]. rewrite Hc1.
  cbn [mbind option_bind]. change (WhyCard.inputValue typed) with (sanitizeInput v).
  rewrite Htrim, Hsub. reflexivity.
Qed.

Lemma typed_answer_recorded_witness :
  reachable sample_page
  /\ safeParse inputSchema (sanitizeInput (of_string " <b>Alternator</b> failed ")) = []
  /\ exists s' : State,
       handleAnswerSubmit (of_string "Alternator failed") (app sample_page) = Some s'
       /\ run [AnswerChange (of_string " <b>Alternator</b> failed "); AnswerEnter]
            sample_page
          = Some {| app := s';
                    cards := replicate (length (whySteps s')) WhyCard.initial |}.
Proof.
  split; [apply sample_page_reachable |]. split; [vm_compute; reflexivity |].
  destruct (typed_answer_recorded sample_page
              (of_string " <b>Alternator</b> failed ") sample_page_reachable)
    as (s' & st & _ & Hs' & _ & _ & Hrun & _);
    [reflexivity | simpl; lia | vm_compute; reflexivity | vm_compute; reflexivity |].
  exists s'. split; [| exact Hrun].
  replace (of_string "Alternator failed")
    with (trim (sanitizeInput (of_string " <b>Alternator</b> failed ")))
    by (vm_compute; reflexivity).
  exact Hs'.
Defined.

(** X13. On a reachable page with a step open, typing a text whose sanitized
    form the answer schema refuses, then pressing Enter, leaves the
    controller's state as it was: nothing is recorded, the index stays, and
    only the active card changes, to the typed text with the message of the
    first failed check. *)
Theorem typed_answer_refused (p : Page) (v : jsstring) (Hp : reachable p)
  (Hst : isStarted (app p) = true) (Hcur : currentStep (app p) <= 4)
  (Hparse : safeParse inputSchema (sanitizeInput v) <> []) :
  run [AnswerChange v; AnswerEnter] p
  = Some {| app := app p;
            cards :=
              <[currentStep (app p) :=
                  {| WhyCard.inputValue := sanitizeInput v;
                     WhyCard.error :=
                       Some (if 500 <? length (sanitizeInput v) then msg_too_long
                             else msg_invalid) |}]> (cards p) |}.
Proof.
  pose proof (reachable_inv p Hp) as Hinv.
  destruct (active_card_exists p Hinv Hst Hcur) as (Hlt & c0 & Hc0).
  set (typed := {| WhyCard.inputValue := sanitizeInput v; WhyCard.error := None |}).
  cbn [run dispatch]. rewrite Hc0. cbn [mbind option_bind].
  unfold submit, activeCard. cbn [app cards]. rewrite Hst.
  rewrite list_lookup_insert_eq by exact Hlt. cbn [mbind option_bind].
  change (WhyCard.handleInputChange v c0) with typed.
  rewrite (handleSubmit_reject handleAnswerSubmit typed (app p) Hparse).
  cbn [mbind option_bind fst snd WhyCard.inputValue typed].
  rewrite list_insert_insert_eq. unfold render. do 2 f_equal.
  apply mount_same. rewrite length_insert. apply (inv_cards p Hinv).
Qed.

Lemma typed_answer_refused_witness :
  reachable sample_page
  /\ sanitizeInput (of_string "see <script") = of_string "see <script"
  /\ run [AnswerChange (of_string "see <script"); AnswerEnter] sample_page
     = Some {| app := app sample_page;
               cards :=
                 [WhyCard.initial;
                  {| WhyCard.inputValue := of_string "see <script";
                     WhyCard.error := Some (of_string "Invalid content") |}] |}.
Proof.
  split; [apply sample_page_reachable |]. split; [vm_compute; reflexivity |].
  rewrite (typed_answer_refused sample_page (of_string "see <script")
             sample_page_reachable);
    [vm_compute; reflexivity | reflexivity | simpl; lia | vm_compute; discriminate].
Defined.

(** ** Typing a problem and starting *)

Lemma mount_idle (s : State) (cs : list WhyCard.State) :
  isStarted s = false -> mount s cs = [].
Proof. intros H. unfold mount. rewrite H. reflexivity. Qed.

(** X14. From a reachable page without a session, typing a problem text and
    clicking the start button goes one of three ways, by the sanitized text:
    if it is blank the button is disabled and the click is not offered; if
    the schema refuses it the session stays unstarted and the message of the
    first failed check is shown; otherwise the session starts with one card
    and one open step whose question embeds the sanitized text, untrimmed. *)
Theorem typed_problem_started (p : Page) (v : jsstring) (Hp : reachable p)
  (Hst : isStarted (app p) = false) :
  (blank (sanitizeInput v) -> run [ProblemChange v; StartClick] p = None)
  /\ (~ blank (sanitizeInput v) -> ~ spec_valid (sanitizeInput v) ->
      run [ProblemChange v; StartClick] p
      = Some {| app :=
                  {| problem := sanitizeInput v; isStarted := false;
                     whySteps := []; currentStep := 0;
                     error :=
                       Some (if length (sanitizeInput v) <? 3 then msg_too_short
                             else if 500 <? length (sanitizeInput v)
                                  then msg_too_long else msg_invalid) |};
                cards := [] |})
  /\ (~ blank (sanitizeInput v) -> spec_valid (sanitizeInput v) ->
      run [ProblemChange v; StartClick] p
      = Some {| app :=
                  session (sanitizeInput v) None
                    [step (of_string "Why is " ++ [dquote] ++ sanitizeInput v
                           ++ [dquote] ++ of_string " happening?") []] 0;
                cards := [WhyCard.initial] |}).
Proof.
  pose proof (inv_shape p (reachable_inv p Hp)) as Hshape.
  unfold step_shape in Hshape. rewrite Hst in Hshape. destruct Hshape as [Hnil Hcur].
  assert (Hrun : run [ProblemChange v; StartClick] p
                 = if truthy (trim (sanitizeInput v))
                   then Some (render
                                (startAnalysis
                                   {| problem := sanitizeInput v; isStarted := false;
                                      whySteps := []; currentStep := 0;
                                      error := None |}) [])
                   else None).
  { cbn [run dispatch]. rewrite Hst. cbn [mbind option_bind].
    unfold render, handleProblemChange. cbn [app cards isStarted problem].
    rewrite Hst, Hnil, Hcur.
    rewrite (mount_idle
               {| problem := sanitizeInput v; isStarted := false; whySteps := [];
                  currentStep := 0; error := None |} (cards p) eq_refl).
    destruct (truthy (trim (sanitizeInput v))); reflexivity. }
  rewrite Hrun. split; [| split].
  - intros Hb. apply trim_truthy_false in Hb. rewrite Hb. reflexivity.
  - intros Hb Hv.
    destruct (truthy (trim (sanitizeInput v))) eqn:Ht;
      [| apply trim_truthy_false in Ht; contradiction].
    assert (Hne : safeParse problemSchema (sanitizeInput v) <> [])
      by (intros E; apply problemSchema_accepts in E; contradiction).
    unfold startAnalysis. cbn [problem].
    pose proof (first_message_problemSchema _ Hne) as Hm.
    destruct (safeParse problemSchema (sanitizeInput v)); [contradiction |].
    rewrite Hm. reflexivity.
  - intros Hb Hv.
    destruct (truthy (trim (sanitizeInput v))) eqn:Ht;
      [| apply trim_truthy_false in Ht; contradiction].
    apply problemSchema_accepts in Hv. unfold startAnalysis. cbn [problem].
    rewrite Hv. reflexivity.
Qed.

Lemma typed_problem_started_witness :
  reachable initialPage
  /\ sanitizeInput (of_string "<i>Car</i> won't start") = car
  /\ run [ProblemChange (of_string "<i>Car</i> won't start"); StartClick] initialPage
     = Some {| app :=
                 session car None
                   [step (of_string "Why is " ++ [dquote]
                          ++ of_string "Car won't start" ++ [dquote]
                          ++ of_string " happening?") []] 0;
               cards := [WhyCard.initial] |}.
Proof.
  split; [apply reachable_initial |]. split; [vm_compute; reflexivity |].
  destruct (typed_problem_started initialPage (of_string "<i>Car</i> won't start")
              reachable_initial eq_refl) as (_ & _ & H).
  rewrite H.
  - vm_compute. reflexivity.
  - intros Hb. apply trim_truthy_false in Hb. vm_compute in Hb. discriminate.
  - split; [vm_compute; lia | vm_compute; reflexivity].
Defined.

(** ** Which events a page offers *)

(** X15. What a reachable page offers depends on its phase only. Without a
    session: editing the problem, and starting when the text is not blank.
    With a step open: editing the answer, Enter, the button when the answer
    is not blank, and the reset. Once completed: the reset alone. *)
Theorem events_by_phase (p : Page) (Hp : reachable p) :
  (isStarted (app p) = false ->
   forall e : Event,
     is_Some (dispatch e p)
     <-> (exists v, e = ProblemChange v)
         \/ (e = StartClick /\ ~ blank (problem (app p))))
  /\ (isStarted (app p) = true -> isCompleted (app p) = false ->
      exists c : WhyCard.State,
        activeCard p = Some c
        /\ forall e : Event,
             is_Some (dispatch e p)
             <-> (exists v, e = AnswerChange v) \/ e = AnswerEnter
                 \/ (e = AnswerClick /\ ~ blank (WhyCard.inputValue c))
                 \/ e = ResetClick)
  /\ (isStarted (app p) = true -> isCompleted (app p) = true ->
      forall e : Event, is_Some (dispatch e p) <-> e = ResetClick).
Proof.
  pose proof (reachable_inv p Hp) as Hinv.
  pose proof (inv_shape p Hinv) as Hshape. unfold step_shape in Hshape.
  assert (Hblank : forall s : jsstring, truthy (trim s) = true <-> ~ blank s).
  { intros s. rewrite <- trim_truthy_false. destruct (truthy (trim s)); split;
      congruence. }
  split; [| split].
  - intros Hst e. unfold activeCard, submit, activeCard.
    destruct e; cbn [dispatch]; unfold submit, activeCard; rewrite Hst;
      cbn [mbind option_bind].
    + split; [intros _; left; eexists; reflexivity | intros _; eexists; reflexivity].
    + rewrite <- Hblank. destruct (truthy (trim (problem (app p)))); split.
      * intros _. right. tauto.
      * intros _. eexists; reflexivity.
      * intros [x H]. discriminate.
      * intros [[v H] | [_ H]]; discriminate.
    + split; [intros [x H]; discriminate | intros [[v H] | [H _]]; discriminate].
    + split; [intros [x H]; discriminate | intros [[v H] | [H _]]; discriminate].
    + split; [intros [x H]; discriminate | intros [[v H] | [H _]]; discriminate].
    + split; [intros [x H]; discriminate | intros [[v H] | [H _]]; discriminate].
  - intros Hst Hc. unfold isCompleted in Hc. apply Nat.eqb_neq in Hc.
    rewrite Hst in Hshape.
    assert (Hcur : currentStep (app p) <= 4) by lia.
    destruct (active_card_exists p Hinv Hst Hcur) as (_ & c & Hact).
    exists c. split; [exact Hact |].
    assert (Hsub : is_Some (submit p)).
    { unfold submit. rewrite Hact. cbn [mbind option_bind].
      unfold WhyCard.handleSubmit.
      destruct (safeParse inputSchema (WhyCard.inputValue c));
        [| eexists; reflexivity].
      destruct (truthy (trim (WhyCard.inputValue c))); [| eexists; reflexivity].
      destruct (answer_index_in_range_aux p Hinv Hst Hcur
                  (trim (WhyCard.inputValue c))) as [s' ->].
      eexists; reflexivity. }
    intros e. destruct e; cbn [dispatch]; rewrite ?Hst, ?Hact;
      cbn [mbind option_bind].
    + split; [intros [x H]; discriminate |].
      intros [[v H] | [H | [[H _] | H]]]; discriminate.
    + split; [intros [x H]; discriminate |].
      intros [[v H] | [H | [[H _] | H]]]; discriminate.
    + split; [intros _; left; eexists; reflexivity | intros _; eexists; reflexivity].
    + split; [intros _; right; left; reflexivity | intros _; exact Hsub].
    + rewrite <- Hblank. destruct (truthy (trim (WhyCard.inputValue c))); split.
      * intros _. right. right. left. tauto.
      * intros _. exact Hsub.
      * intros [x H]. discriminate.
      * intros [[v H] | [H | [[_ H] | H]]]; discriminate.
    + split; [intros _; right; right; right; reflexivity
             | intros _; eexists; reflexivity].
  - intros Hst Hc.
    assert (Hact : activeCard p = None).
    { destruct (activeCard p) as [c |] eqn:E; [| reflexivity].
      destruct (activeCard_index p c Hinv E) as (_ & _ & H & _).
      unfold isCompleted in Hc. apply Nat.eqb_eq in Hc. lia. }
    intros e. destruct e; cbn [dispatch]; unfold submit; rewrite ?Hst, ?Hact;
      cbn [mbind option_bind];
      (split; [intros [x H]; first [discriminate | reflexivity]
              | intros H; first [discriminate | eexists; reflexivity]]).
Qed.

Lemma events_by_phase_witness :
  reachable completed_page
  /\ dispatch AnswerEnter completed_page = None
  /\ dispatch (ProblemChange car) completed_page = None.
Proof.
  split; [apply completed_page_reachable |].
  destruct (events_by_phase completed_page completed_page_reachable)
    as (_ & _ & H).
  specialize (H eq_refl eq_refl).
  split.
  - destruct (dispatch AnswerEnter completed_page) eqn:E; [| reflexivity].
    assert (Hs : is_Some (dispatch AnswerEnter completed_page))
      by (rewrite E; eexists; reflexivity).
    apply H in Hs. discriminate.
  - destruct (dispatch (ProblemChange car) completed_page) eqn:E; [| reflexivity].
    assert (Hs : is_Some (dispatch (ProblemChange car) completed_page))
      by (rewrite E; eexists; reflexivity).
    apply H in Hs. discriminate.
Defined.

(** X16. On every reachable page no text area holds a complete tag, neither
    the problem's nor a card's, and every card other than the active one is
    in its initial state: empty, without a message. *)
Theorem text_areas_clean (p : Page) (Hp : reachable p) :
  regex_test re_tag (problem (app p)) = false
  /\ (forall (i : nat) (c : WhyCard.State),
        cards p !! i = Some c ->
        regex_test re_tag (WhyCard.inputValue c) = false
        /\ (i <> currentStep (app p) ->
            WhyCard.inputValue c = [] /\ WhyCard.error c = None)).
Proof.
  pose proof (reachable_ok p Hp) as Hok. split.
  - apply regex_test_tag_false, (ok_problem_tags _ (ok_state p Hok)).
  - intros i c Hc. split.
    + pose proof (ok_cards p Hok) as H. eapply Forall_lookup_1 in H; [| exact Hc].
      apply regex_test_tag_false, H.
    + intros Hne. rewrite (ok_inactive p Hok i c Hc Hne). split; reflexivity.
Qed.

Lemma text_areas_clean_witness :
  reachable typed_page
  /\ regex_test re_tag (of_string " Battery dead ") = false.
Proof.
  split; [apply typed_page_reachable |].
  destruct (text_areas_clean typed_page typed_page_reachable) as [_ H].
  apply (H 0 {| WhyCard.inputValue := of_string " Battery dead ";
                WhyCard.error := None |} eq_refl).
Defined.

(** [handleKeyDown] submits on Enter without Shift and leaves every other key
    alone. *)
Lemma handleKeyDown_cases {P : Type} (key : jsstring) (shiftKey : bool)
  (onAnswerSubmit : jsstring -> P -> option P) (c : WhyCard.State) (parent : P) :
  (key = of_string "Enter" -> shiftKey = false ->
   CardView.handleKeyDown key shiftKey onAnswerSubmit c parent
   = WhyCard.handleSubmit onAnswerSubmit c parent)
  /\ (key <> of_string "Enter" \/ shiftKey = true ->
      CardView.handleKeyDown key shiftKey onAnswerSubmit c parent = Some (c, parent)).
Proof.
  unfold CardView.handleKeyDown. split.
  - intros -> ->. rewrite bool_decide_eq_true_2 by reflexivity. reflexivity.
  - intros [Hk | ->].
    + rewrite bool_decide_eq_false_2 by exact Hk. reflexivity.
    + rewrite andb_false_r. reflexivity.
Qed.
